(** * qmexmut: mutually exclusive Proxmox guests, a shallow embedding

    This development embeds the conflict-detection core of [qmexmut.go]:
    the regular expressions it matches command output with, the resource
    label classifier [labelHostResource], the scanner / matcher layers over
    external commands, [mutuals], the errgroup fan-out of [stopMutuals] and
    the hook dispatcher [runHook]. *)

From Stdlib Require Import String Ascii List Bool Arith Lia.
From stdpp Require Import base gmap sets strings.
Import ListNotations.

Local Open Scope list_scope.

(* ------------------------------------------------------------------ *)
(** ** Regular expressions of the source (Go RE2, leftmost-first)       *)
(* ------------------------------------------------------------------ *)

Module Regexp.

(** A Go [regexp.FindSubmatch] result: [None] is a nil result (no match);
    otherwise the slice of sub-matches, entry 0 the whole match.  An entry
    is [None] for a group that did not participate (a nil []byte). *)
Definition submatch := option (list (option string)).

(** [\s] of RE2 is the Perl class [[\t\n\f\r ]]. *)
Definition is_space (c : ascii) : bool :=
  match nat_of_ascii c with
  | 9 | 10 | 12 | 13 | 32 => true
  | _ => false
  end.

(** [\w] of RE2 is ASCII [[0-9A-Za-z_]]; [\b] is defined from it. *)
Definition is_word (c : ascii) : bool :=
  let n := nat_of_ascii c in
  ((48 <=? n) && (n <=? 57)) || ((65 <=? n) && (n <=? 90)) ||
  ((97 <=? n) && (n <=? 122)) || (n =? 95).

(** [.] without the [s] flag: any character but a newline. *)
Definition is_dot (c : ascii) : bool := negb (nat_of_ascii c =? 10).

Definition not_space (c : ascii) : bool := negb (is_space c).

Definition not_comma (c : ascii) : bool := negb (Ascii.eqb c ","%char).

Definition char_at (s : string) (i : nat) (P : ascii -> bool) : bool :=
  match String.get i s with Some c => P c | None => false end.

(** End of the longest run of characters satisfying [P] from [i]. *)
Fixpoint run_end_from (P : ascii -> bool) (s : string) (i : nat) (fuel : nat) : nat :=
  match fuel with
  | O => i
  | S fuel' => if char_at s i P then run_end_from P s (S i) fuel' else i
  end.

Definition run_end (P : ascii -> bool) (s : string) (i : nat) : nat :=
  run_end_from P s i (String.length s).

(** Candidate end positions of [X+] from [i], in the order a backtracking
    matcher tries them: greedy = longest first, lazy = shortest first;
    [X*] greedy also offers the empty run last. *)
Definition greedy_plus (P : ascii -> bool) (s : string) (i : nat) : list nat :=
  rev (seq (S i) (run_end P s i - i)).
Definition greedy_star (P : ascii -> bool) (s : string) (i : nat) : list nat :=
  rev (seq i (S (run_end P s i - i))).
Definition lazy_plus (P : ascii -> bool) (s : string) (i : nat) : list nat :=
  seq (S i) (run_end P s i - i).

(** The first alternative, in priority order, that leads to a match. *)
Fixpoint first_some {A B} (f : A -> option B) (l : list A) : option B :=
  match l with
  | [] => None
  | x :: l' => match f x with Some y => Some y | None => first_some f l' end
  end.

(** Unanchored search tries the start positions [0 .. len s] in order. *)
Definition starts (s : string) : list nat := seq 0 (S (String.length s)).

Definition sub (s : string) (i j : nat) : string := substring i (j - i) s.

(** [\b] at position [i]. *)
Definition word_boundary (s : string) (i : nat) : bool :=
  let before := match i with O => false | S k => char_at s k is_word end in
  let after := char_at s i is_word in
  xorb before after.

(** [keyValPat = regexp.MustCompile(`(.+?):\s*(.+)`)] *)
Definition keyValPat (s : string) : submatch :=
  first_some (fun p =>
    first_some (fun a =>
      if char_at s a (fun c => Ascii.eqb c ":"%char) then
        first_some (fun b =>
          first_some (fun c =>
            Some [Some (sub s p c); Some (sub s p a); Some (sub s b c)])
            (greedy_plus is_dot s b))
          (greedy_star is_space s (S a))
      else None)
      (lazy_plus is_dot s p))
    (starts s).

(** [usbHostPat = regexp.MustCompile(`\bhost=([^,]+)`)] *)
Definition usbHost_at (s : string) (p : nat) : submatch :=
  if word_boundary s p && String.eqb (substring p 5 s) "host="
  then first_some (fun e =>
         Some [Some (sub s p e); Some (sub s (p + 5) e)])
         (greedy_plus not_comma s (p + 5))
  else None.

Definition usbHostPat (s : string) : submatch :=
  first_some (usbHost_at s) (starts s).

(** [listPat = regexp.MustCompile(`([^\s]+)\s+(.+?)\s+(.+?)\s+`)] *)
Definition listPat (s : string) : submatch :=
  first_some (fun p =>
    first_some (fun a =>
      first_some (fun b =>
        first_some (fun c =>
          first_some (fun d =>
            first_some (fun e =>
              first_some (fun f =>
                Some [Some (sub s p f); Some (sub s p a);
                      Some (sub s b c); Some (sub s d e)])
                (greedy_plus is_space s e))
              (lazy_plus is_dot s d))
            (greedy_plus is_space s c))
          (lazy_plus is_dot s b))
        (greedy_plus is_space s a))
      (greedy_plus not_space s p))
    (starts s).

End Regexp.

Import Regexp.

(* ------------------------------------------------------------------ *)
(** ** cmdMatcher accessors and the resource classifier                 *)
(* ------------------------------------------------------------------ *)

(** [cmm.match]: [nil] when no match is held.  Indices are Go [int]s;
    every caller passes a constant [0 .. 3], so they are modelled as [nat]
    (a negative index would panic in Go). *)
Definition match_t := list (option string).

(** [func (cmm *cmdMatcher) Match(i int) []byte]; [None] is a nil slice. *)
Definition Match (m : match_t) (i : nat) : option string :=
  if i <? length m then nth i m None else None.

(** [func (cmm *cmdMatcher) MatchText(i int) string]; [string(nil)] is "". *)
Definition MatchText (m : match_t) (i : nat) : string :=
  if i <? length m then
    match nth i m None with Some t => t | None => ""%string end
  else ""%string.

(** [strings.IndexByte] *)
Fixpoint IndexByte (s : string) (c : ascii) : option nat :=
  match s with
  | EmptyString => None
  | String c' s' =>
      if ascii_dec c' c then Some 0
      else option_map S (IndexByte s' c)
  end.

(** [labelHostResource(cmm *cmdMatcher) string] *)
Definition labelHostResource (cmm : match_t) : string :=
  let name := MatchText cmm 1 in
  if String.prefix "hostpci" name then
    let value := MatchText cmm 2 in
    let value := match IndexByte value ","%char with
                 | Some i => substring 0 i value
                 | None => value
                 end in
    ("hostpci:" ++ value)%string
  else if String.prefix "usb" name then
    match usbHostPat (match Match cmm 2 with Some v => v | None => ""%string end) with
    | Some m => if 0 <? length m then ("hostusb:" ++ MatchText m 1)%string else ""%string
    | None => ""%string
    end
  else ""%string.

(** The classifier applied to a configuration line already split by
    [keyValPat] into its key (group 1) and value (group 2). *)
Definition classify (key value : string) : string :=
  labelHostResource [Some (key ++ ": " ++ value)%string; Some key; Some value].

(** A [host=<token>] fragment of [v] as [usbHostPat] sees it: it starts at
    [p] on a word boundary (the value's start, or right after a character
    that is not an ASCII letter, digit or underscore), and its token is the
    non-empty run of non-comma characters from [p + 5] to [e], ended by a
    comma or by the end of [v]. *)
Definition host_fragment (v : string) (p e : nat) : Prop :=
  (p = 0 \/ exists c, String.get (pred p) v = Some c /\ is_word c = false) /\
  substring p 5 v = "host="%string /\ p + 5 < e /\
  (forall k, p + 5 <= k < e -> exists c, String.get k v = Some c /\ c <> ","%char) /\
  (String.get e v = None \/ String.get e v = Some ","%char).

(** A [host=<token>] fragment read literally: any occurrence of [host=]
    followed by a comma-free token ended by a comma or the end. *)
Definition literal_host_fragment (v t : string) : Prop :=
  exists pre rest, v = (pre ++ "host=" ++ t ++ rest)%string /\
    (rest = ""%string \/ exists r, rest = String ","%char r) /\
    ~ In ","%char (list_ascii_of_string t).

(* ------------------------------------------------------------------ *)
(** ** Line Stream: [cmdScanner] over an external command               *)
(* ------------------------------------------------------------------ *)

Module Scanner.

Inductive wait_status :=
| Exited (code : nat)
| Signaled (signal : nat).

Definition SIGKILL : nat := 9.

(** Go [error] values produced on these paths. *)
Inductive error :=
| ErrText (msg : string)                         (* from os / os/exec *)
| ErrIO (e : error)                              (* "io error: %w" *)
| ErrExit (ws : wait_status)                     (* *exec.ExitError *)
| ErrCommand (args : list string) (e : error)    (* "command %q failed: %w" *)
| ErrUsage (progName : string)                   (* "usage: %s <vmid> <phase>" *)
| ErrUnknownPhase (phase : string).              (* "got unknown phase %q" *)

(** An [*exec.Cmd] together with what the operating system does with it:
    whether [StdoutPipe] and [Start] fail, the lines it writes, and the
    read error (if any) the reader hits after them. *)
Record Cmd := {
  Args : list string;
  pipe_err : option error;
  start_err : option error;
  output : list string;
  read_err : option error
}.

(** [*bufio.Scanner] over the command's stdout. *)
Record bufScanner := {
  sc_rest : list string;
  sc_fail : option error;
  sc_token : string;
  sc_err : option error
}.

Definition newScanner (c : Cmd) : bufScanner :=
  {| sc_rest := output c; sc_fail := read_err c; sc_token := ""; sc_err := None |}.

(** [bufio.Scanner.Scan]: next line, or false at end of input, where a read
    error other than EOF becomes [Err()]. *)
Definition bufScan (b : bufScanner) : bool * bufScanner :=
  match sc_rest b with
  | l :: rest => (true, {| sc_rest := rest; sc_fail := sc_fail b; sc_token := l; sc_err := sc_err b |})
  | [] => (false, {| sc_rest := []; sc_fail := sc_fail b; sc_token := ""; sc_err := sc_fail b |})
  end.

(** [type cmdScanner struct { cmd *exec.Cmd; err error; *bufio.Scanner }];
    [started] is [cmd.Process != nil], [waited] records a reaped process.
    Every constructor of the source binds a non-nil [cmd]. *)
Record cmdScanner := {
  cmd : Cmd;
  started : bool;
  waited : bool;
  err : option error;
  scanner : option bufScanner
}.

Definition newCmdScanner (c : Cmd) : cmdScanner :=
  {| cmd := c; started := false; waited := false; err := None; scanner := None |}.

Definition set_err (s : cmdScanner) (e : option error) : cmdScanner :=
  {| cmd := cmd s; started := started s; waited := waited s; err := e; scanner := scanner s |}.
Definition set_started (s : cmdScanner) (b : bool) : cmdScanner :=
  {| cmd := cmd s; started := b; waited := waited s; err := err s; scanner := scanner s |}.
Definition set_waited (s : cmdScanner) (b : bool) : cmdScanner :=
  {| cmd := cmd s; started := started s; waited := b; err := err s; scanner := scanner s |}.
Definition set_scanner (s : cmdScanner) (b : option bufScanner) : cmdScanner :=
  {| cmd := cmd s; started := started s; waited := waited s; err := err s; scanner := b |}.

(** [csc.Bytes()] / [csc.Text()]: the current token. *)
Definition Bytes (s : cmdScanner) : string :=
  match scanner s with Some b => sc_token b | None => "" end.

(** [func (csc *cmdScanner) Scan() bool] *)
Definition Scan (csc : cmdScanner) : bool * cmdScanner :=
  match err csc with
  | Some _ => (false, csc)
  | None =>
    let start : cmdScanner + cmdScanner :=
      if started csc then inr csc
      else
        let piped :=
          match scanner csc with
          | Some _ => inr csc
          | None =>
            match pipe_err (cmd csc) with
            | Some e => inl (set_err csc (Some e))
            | None => inr (set_scanner csc (Some (newScanner (cmd csc))))
            end
          end in
        match piped with
        | inl c => inl c
        | inr c =>
          match start_err (cmd c) with
          | Some e => inl (set_err c (Some e))
          | None => inr (set_started c true)
          end
        end in
    match start with
    | inl c => (false, c)
    | inr c =>
      match scanner c with
      | None => (false, c)
      | Some b => let '(ok, b') := bufScan b in (ok, set_scanner c (Some b'))
      end
    end
  end.

(** [func (csc *cmdScanner) Err() error] *)
Definition Err (csc : cmdScanner) : option error * cmdScanner :=
  match err csc with
  | Some e => (Some e, csc)
  | None =>
    match scanner csc with
    | Some b =>
      match sc_err b with
      | Some e => (Some (ErrIO e), set_err csc (Some (ErrIO e)))
      | None => (None, csc)
      end
    | None => (None, csc)
    end
  end.

(** The state of the child process when [Cleanup] runs: still running, or
    already terminated (by itself or by a signal from elsewhere) and not yet
    reaped. *)
Inductive proc_state :=
| Running
| Terminated (ws : wait_status).

(** [Process.Kill()] then [Wait()]: a running process dies of the SIGKILL
    just sent; an already terminated one keeps its own status. *)
Definition exit_after_kill (p : proc_state) : wait_status :=
  match p with Running => Signaled SIGKILL | Terminated ws => ws end.

(** [cmd.Wait()] *)
Definition cmd_wait (csc : cmdScanner) (ws : wait_status) : option error :=
  if waited csc then Some (ErrText "exec: Wait was already called")
  else match ws with Exited 0 => None | _ => Some (ErrExit ws) end.

(** [func isKillError(err error) bool] *)
Definition isKillError (e : option error) : bool :=
  match e with
  | Some (ErrExit (Signaled sig)) => Nat.eqb sig SIGKILL
  | _ => false
  end.

Inductive effect :=
| EKill
| EWait.

(** [func (csc *cmdScanner) Cleanup(errp *error)]; [errp] is [None] for a
    nil pointer, [Some cur] for a pointer to [cur]. *)
Definition Cleanup (csc : cmdScanner) (errp : option (option error)) (p : proc_state)
  : cmdScanner * option (option error) * list effect :=
  let '(csc1, effs) :=
    if started csc then
      let werr := cmd_wait csc (exit_after_kill p) in
      let werr := if isKillError werr then None else werr in
      let c := set_waited csc true in
      let '(e, c) := Err c in
      ((match e with None => set_err c werr | Some _ => c end), [EKill; EWait])
    else (csc, []) in
  let '(e, csc2) := Err csc1 in
  let errp' :=
    match e, errp with
    | Some e, Some None => Some (Some (ErrCommand (Args (cmd csc2)) e))
    | _, _ => errp
    end in
  (csc2, errp', effs).

(** A sequence of calls on one scanner and what each call returns. *)
Inductive op :=
| OpScan
| OpErr
| OpCleanup (errp : option (option error)) (p : proc_state).

Inductive obs :=
| ObsScan (ok : bool)
| ObsErr (e : option error)
| ObsCleanup (errp : option (option error)) (effs : list effect).

Fixpoint run_ops (csc : cmdScanner) (ops : list op) : cmdScanner * list obs :=
  match ops with
  | [] => (csc, [])
  | OpScan :: ops' =>
      let '(ok, c) := Scan csc in
      let '(c', os) := run_ops c ops' in (c', ObsScan ok :: os)
  | OpErr :: ops' =>
      let '(e, c) := Err csc in
      let '(c', os) := run_ops c ops' in (c', ObsErr e :: os)
  | OpCleanup errp p :: ops' =>
      let '(c, errp', effs) := Cleanup csc errp p in
      let '(c', os) := run_ops c ops' in (c', ObsCleanup errp' effs :: os)
  end.

(** [type cmdMatcher struct { cmdScanner; pat *regexp.Regexp; match [][]byte }] *)
Record cmdMatcher := {
  msc : cmdScanner;
  pat : string -> submatch;
  mmatch : match_t
}.

(** Lines the scanner can still deliver: the loop of [cmdMatcher.Scan]
    calls the underlying [Scan] at most this many times plus one. *)
Definition lines_left (c : cmdScanner) : nat :=
  match scanner c with
  | Some b => length (sc_rest b)
  | None => length (output (cmd c))
  end.

(** The loop of [func (cmm *cmdMatcher) Scan() bool]. *)
Fixpoint matcher_loop (fuel : nat) (pat : string -> submatch) (c : cmdScanner)
  : bool * cmdScanner * match_t :=
  match fuel with
  | O => (false, c, [])
  | S fuel' =>
    let '(ok, c') := Scan c in
    if ok then
      match pat (Bytes c') with
      | Some m => (true, c', m)
      | None => matcher_loop fuel' pat c'
      end
    else (false, c', [])
  end.

Definition MatcherScan (m : cmdMatcher) : bool * cmdMatcher :=
  let '(ok, c, mt) := matcher_loop (S (S (lines_left (msc m)))) (pat m) (msc m) in
  (ok, {| msc := c; pat := pat m; mmatch := mt |}).

Definition matchCommand (c : Cmd) (p : string -> submatch) : cmdMatcher :=
  {| msc := newCmdScanner c; pat := p; mmatch := [] |}.

End Scanner.

(* ------------------------------------------------------------------ *)
(** ** Conflict Finder, Shutdown Orchestrator and Hook Dispatcher        *)
(* ------------------------------------------------------------------ *)

Module Hook.

Import Scanner.

(** One run of [qm config <id>] as the recognizer sees it: the lines it
    prints, and the error [Cleanup(&rerr)] leaves in [rerr] when the caller
    drains the recognizer ([cfg_err_full]) or stops after a label and
    kills the process ([cfg_err_early]). *)
Record ConfigRun := {
  cfg_lines : list string;
  cfg_err_full : option error;
  cfg_err_early : option error
}.

(** The host as the hook sees it: the lines of [qm list], the error
    [cmm.Err()] returns after them (start or read error; [mutuals] never
    waits for this command), and the [qm config] run of each guest. *)
Record World := {
  qm_list : list string;
  qm_list_err : option error;
  qm_config : string -> ConfigRun
}.

(** The labels [cmdRecognizer.Scan] yields over these lines, in order: the
    lines matched by [keyValPat] whose [labelHostResource] is non-empty. *)
Fixpoint recognized (lines : list string) : list string :=
  match lines with
  | [] => []
  | l :: rest =>
    match keyValPat l with
    | Some m =>
      let label := labelHostResource m in
      if String.eqb label "" then recognized rest else label :: recognized rest
    | None => recognized rest
    end
  end.

(** [func hostResources(id string) (_ map[string]struct{}, rerr error)] *)
Definition hostResources (w : World) (vmid : string) : gset string * option error :=
  let run := qm_config w vmid in
  (list_to_set (recognized (cfg_lines run)), cfg_err_full run).

(** [func sharesHostResources(id string, reses map[string]struct{}) (bool, error)] *)
Definition sharesHostResources (w : World) (vmid : string) (reses : gset string)
  : bool * option error :=
  let run := qm_config w vmid in
  if existsb (fun l => bool_decide (l ∈ reses)) (recognized (cfg_lines run))
  then (true, cfg_err_early run)
  else (false, cfg_err_full run).

(** [type listRec struct { id, name, status string }] *)
Record listRec := {
  id : string;
  name : string;
  status : string
}.

(** The rows of [qm list] seen by the loop of [mutuals]: the lines that
    [listPat] matches, without the first one (skipped as the header). *)
Fixpoint list_matches (lines : list string) : list match_t :=
  match lines with
  | [] => []
  | l :: rest =>
    match listPat l with
    | Some m => m :: list_matches rest
    | None => list_matches rest
    end
  end.

Definition list_rows (lines : list string) : list listRec :=
  map (fun m => {| id := MatchText m 1; name := MatchText m 2; status := MatchText m 3 |})
      (tl (list_matches lines)).

(** The [for cmm.Scan()] loop of [mutuals]. *)
Fixpoint mutuals_loop (w : World) (vmid : string) (res : gset string)
    (rows : list listRec) (mutualIds : list listRec) : list listRec * option error :=
  match rows with
  | [] => (mutualIds, None)
  | r :: rest =>
    if String.eqb (id r) vmid then mutuals_loop w vmid res rest mutualIds
    else
      let '(shares, err) := sharesHostResources w (id r) res in
      match err with
      | Some e => ([], Some e)
      | None =>
        mutuals_loop w vmid res rest (if shares then mutualIds ++ [r] else mutualIds)
      end
  end.

(** [func mutuals(id string) (mutualIds []listRec, _ error)] *)
Definition mutuals (w : World) (vmid : string) : list listRec * option error :=
  let '(res, err) := hostResources w vmid in
  match err with
  | Some e => ([], Some e)
  | None =>
    let '(mutualIds, err) := mutuals_loop w vmid res (list_rows (qm_list w)) [] in
    match err with
    | Some e => ([], Some e)
    | None =>
      match qm_list_err w with
      | Some e => ([], Some e)
      | None => (mutualIds, None)
      end
    end
  end.

(** What the hook does to the outside world. *)
Inductive event :=
| Run (args : list string)                         (* an external command *)
| LogRun (args : list string)                      (* "run %q" *)
| LogWouldRun (args : list string)                 (* "would run %q" *)
| LogNotStopping (vmid status : string).          (* "not stopping mutual ..." *)

(** [func maybeRun(args ...string) error]; [exec_result] is what running
    the command returns. *)
Definition maybeRun (dryRun : bool) (exec_result : list string -> option error)
    (args : list string) : list event * option error :=
  if dryRun then ([LogWouldRun args], None)
  else ([LogRun args; Run args], exec_result args).

Definition shutdown_args (vmid : string) : list string := ["qm"; "shutdown"; vmid].

(** [stopMutuals] after [mutuals] returned: the loop that launches one
    errgroup task per running mutual, interleaved with the tasks, which
    finish in any order, and [g.Wait()].  [pending] are launched tasks that
    have not finished, [finished] the finished ones in completion order,
    [first_err] the error [errOnce] kept. *)
Record Group := {
  to_visit : list listRec;
  pending : list string;
  finished : list string;
  first_err : option error;
  trace : list event
}.

Definition group_init (recs : list listRec) : Group :=
  {| to_visit := recs; pending := []; finished := []; first_err := None; trace := [] |}.

Inductive group_step (dryRun : bool) (exec_result : list string -> option error)
  : Group -> Group -> Prop :=
| step_running g r rest :
    to_visit g = r :: rest -> status r = "running"%string ->
    group_step dryRun exec_result g
      {| to_visit := rest; pending := pending g ++ [id r]; finished := finished g;
         first_err := first_err g; trace := trace g |}
| step_stopped g r rest :
    to_visit g = r :: rest -> status r = "stopped"%string ->
    group_step dryRun exec_result g
      {| to_visit := rest; pending := pending g; finished := finished g;
         first_err := first_err g; trace := trace g |}
| step_unknown g r rest :
    to_visit g = r :: rest -> status r <> "running"%string -> status r <> "stopped"%string ->
    group_step dryRun exec_result g
      {| to_visit := rest; pending := pending g; finished := finished g;
         first_err := first_err g;
         trace := trace g ++ [LogNotStopping (id r) (status r)] |}
| step_task g l1 vmid l2 :
    pending g = l1 ++ vmid :: l2 ->
    group_step dryRun exec_result g
      {| to_visit := to_visit g; pending := l1 ++ l2; finished := finished g ++ [vmid];
         first_err := match first_err g with
                      | Some e => Some e
                      | None => snd (maybeRun dryRun exec_result (shutdown_args vmid))
                      end;
         trace := trace g ++ fst (maybeRun dryRun exec_result (shutdown_args vmid)) |}.

(** A complete run of the group: the loop is over and [g.Wait()] has seen
    every task finish. *)
Definition group_done (g : Group) : Prop := to_visit g = [] /\ pending g = [].

(** [func stopMutuals(vmid string) error]: the events it causes and the
    error it returns. *)
Inductive stopMutuals (w : World) (dryRun : bool) (exec_result : list string -> option error)
    (vmid : string) : list event -> option error -> Prop :=
| stop_mutuals_failed recs e :
    mutuals w vmid = (recs, Some e) ->
    stopMutuals w dryRun exec_result vmid [] (Some e)
| stop_group recs g :
    mutuals w vmid = (recs, None) ->
    rtc (group_step dryRun exec_result) (group_init recs) g -> group_done g ->
    stopMutuals w dryRun exec_result vmid (trace g) (first_err g).

(** [func runHook(progName string, args []string) error], with the call it
    makes to [stopMutuals] as a parameter; the first component lists the
    guests [stopMutuals] ran for. *)
Definition runHook (stopMutuals : string -> option error) (progName : string)
    (args : list string) : list string * option error :=
  match args with
  | vmid :: phase :: _ =>
    if String.eqb phase "pre-start" then ([vmid], stopMutuals vmid)
    else if String.eqb phase "post-start" then ([], None)
    else if String.eqb phase "pre-stop" then ([], None)
    else if String.eqb phase "post-stop" then ([], None)
    else ([], Some (ErrUnknownPhase phase))
  | _ => ([], Some (ErrUsage progName))
  end.

(** Shutdown requests among the events, and the diagnostics for guests in
    an unknown state. *)
Definition runs (tr : list event) : list (list string) :=
  omap (fun ev => match ev with Run a => Some a | _ => None end) tr.

Definition not_stopping_logs (tr : list event) : list (string * string) :=
  omap (fun ev => match ev with LogNotStopping i s => Some (i, s) | _ => None end) tr.

Definition running_ids (recs : list listRec) : list string :=
  map id (List.filter (fun r => String.eqb (status r) "running") recs).

Definition unknown_recs (recs : list listRec) : list (string * string) :=
  map (fun r => (id r, status r))
    (List.filter (fun r => negb (String.eqb (status r) "running") &&
                      negb (String.eqb (status r) "stopped")) recs).

(** The first error of a sequence of task results. *)
Fixpoint first_error (l : list (option error)) : option error :=
  match l with
  | [] => None
  | Some e :: _ => Some e
  | None :: l' => first_error l'
  end.

(** What a run of the group has done so far, from [group_init recs]. *)
Definition group_inv (dryRun : bool) (exec_result : list string -> option error)
    (recs : list listRec) (g : Group) : Prop :=
  exists visited,
    recs = visited ++ to_visit g /\
    Permutation (finished g ++ pending g) (running_ids visited) /\
    runs (trace g) = (if dryRun then [] else map shutdown_args (finished g)) /\
    not_stopping_logs (trace g) = unknown_recs visited /\
    first_err g = first_error (map (fun v => snd (maybeRun dryRun exec_result (shutdown_args v)))
                                   (finished g)).

End Hook.

(* ------------------------------------------------------------------ *)
(** ** The command-backed layers: recognizer, resource scans, listing   *)
(* ------------------------------------------------------------------ *)

Module Cmds.

Import Scanner.

(** [type cmdRecognizer struct { cmdMatcher; rec func(cmm *cmdMatcher) string;
    label string }]; the recognition function reads the matcher's current
    match. *)
Record cmdRecognizer := {
  rmatcher : cmdMatcher;
  rec : match_t -> string;
  label : string
}.

(** [func recognizeCommand(cmd, pat, rec) *cmdRecognizer] *)
Definition recognizeCommand (c : Cmd) (p : string -> submatch) (r : match_t -> string)
  : cmdRecognizer :=
  {| rmatcher := matchCommand c p; rec := r; label := "" |}.

(** [func (cmr *cmdRecognizer) Label() string] *)
Definition Label (cmr : cmdRecognizer) : string := label cmr.

(** The loop of [func (cmr *cmdRecognizer) Scan() bool]. *)
Fixpoint recognizer_loop (fuel : nat) (r : match_t -> string) (m : cmdMatcher)
  : bool * cmdMatcher * string :=
  match fuel with
  | O => (false, m, "")
  | S fuel' =>
    let '(ok, m') := MatcherScan m in
    if ok then
      let l := r (mmatch m') in
      if String.eqb l "" then recognizer_loop fuel' r m' else (true, m', l)
    else (false, m', "")
  end.

Definition RecognizerScan (cmr : cmdRecognizer) : bool * cmdRecognizer :=
  let '(ok, m, l) :=
    recognizer_loop (S (lines_left (msc (rmatcher cmr)))) (rec cmr) (rmatcher cmr) in
  (ok, {| rmatcher := m; rec := rec cmr; label := l |}).

(** [Err] and [Cleanup] of a recognizer are those of its [cmdScanner]. *)
Definition RecognizerErr (cmr : cmdRecognizer) : option error :=
  fst (Err (msc (rmatcher cmr))).

(** The value a deferred [Cleanup(&rerr)] leaves in [rerr]. *)
Definition result_err (errp : option (option error)) : option error :=
  match errp with Some e => e | None => None end.

(** The loop of [hostResources]:
    [for rec.Scan() { reses[rec.Label()] = struct{}{} }] *)
Fixpoint hostResources_loop (fuel : nat) (cmr : cmdRecognizer) (reses : gset string)
  : gset string * cmdRecognizer :=
  match fuel with
  | O => (reses, cmr)
  | S fuel' =>
    let '(ok, cmr') := RecognizerScan cmr in
    if ok then hostResources_loop fuel' cmr' ({[Label cmr']} ∪ reses)
    else (reses, cmr')
  end.

(** [func hostResources(id string) (_ map[string]struct{}, rerr error)] over
    the [qm config <id>] command [config id]; [p] is the state of that
    process when the deferred [Cleanup] runs. *)
Definition hostResources (config : string -> Cmd) (id : string) (p : proc_state)
  : gset string * option error :=
  let cmr := recognizeCommand (config id) keyValPat labelHostResource in
  let '(reses, cmr') := hostResources_loop (S (lines_left (msc (rmatcher cmr)))) cmr ∅ in
  let '(_, rerr, _) := Cleanup (msc (rmatcher cmr')) (Some None) p in
  (reses, result_err rerr).

(** The loop of [sharesHostResources]:
    [for rec.Scan() { if _, has := reses[rec.Label()]; has { return true, nil } }] *)
Fixpoint shares_loop (fuel : nat) (cmr : cmdRecognizer) (reses : gset string)
  : bool * cmdRecognizer :=
  match fuel with
  | O => (false, cmr)
  | S fuel' =>
    let '(ok, cmr') := RecognizerScan cmr in
    if ok then
      if bool_decide (Label cmr' ∈ reses) then (true, cmr') else shares_loop fuel' cmr' reses
    else (false, cmr')
  end.

(** [func sharesHostResources(id string, reses map[string]struct{}) (hasAny bool, rerr error)] *)
Definition sharesHostResources (config : string -> Cmd) (id : string) (reses : gset string)
    (p : proc_state) : bool * option error :=
  let cmr := recognizeCommand (config id) keyValPat labelHostResource in
  let '(has, cmr') := shares_loop (S (lines_left (msc (rmatcher cmr)))) cmr reses in
  let '(_, rerr, _) := Cleanup (msc (rmatcher cmr')) (Some None) p in
  (has, result_err rerr).

(** [func shouldHook(id string) (bool, error)]:
    [return rec.Scan(), rec.Err()]; no [Cleanup]. *)
Definition shouldHook (config : string -> Cmd) (id : string) : bool * option error :=
  let '(ok, cmr) := RecognizerScan (recognizeCommand (config id) keyValPat labelHostResource) in
  (ok, RecognizerErr cmr).

(** [func matchCommandOnce(cmd *exec.Cmd, pat *regexp.Regexp) (_ string, rerr error)] *)
Definition matchCommandOnce (c : Cmd) (p : string -> submatch) (ps : proc_state)
  : string * option error :=
  let '(_, cmm) := MatcherScan (matchCommand c p) in
  let t := MatchText (mmatch cmm) 1 in
  let '(_, rerr, _) := Cleanup (msc cmm) (Some None) ps in
  (t, result_err rerr).

(** The [for cmm.Scan() { ... }] loop over the rows of a matcher, with the
    match each iteration sees. *)
Fixpoint matcher_rows (fuel : nat) (cmm : cmdMatcher) : list match_t * cmdMatcher :=
  match fuel with
  | O => ([], cmm)
  | S fuel' =>
    let '(ok, cmm') := MatcherScan cmm in
    if ok then let '(rows, cmm'') := matcher_rows fuel' cmm' in (mmatch cmm' :: rows, cmm'')
    else ([], cmm')
  end.

(** How [mutuals] and [runInit] read [qm list]:
    [cmm := matchCommand(exec.Command("qm", "list"), listPat)],
    [cmm.Scan()] to skip the header, [for cmm.Scan() { ... }], then
    [cmm.Err()]. *)
Definition qmListRows (c : Cmd) : list match_t * option error :=
  let '(_, cmm) := MatcherScan (matchCommand c listPat) in
  let '(rows, cmm') := matcher_rows (S (lines_left (msc cmm))) cmm in
  (rows, fst (Err (msc cmm'))).

(** The scanner states of a command whose pipe and start succeeded: reading,
    with the lines still to come and the current token, and drained. *)
Definition streaming (c : Cmd) (rest : list string) (tok : string) : cmdScanner :=
  {| cmd := c; started := true; waited := false; err := None;
     scanner := Some {| sc_rest := rest; sc_fail := read_err c; sc_token := tok;
                        sc_err := None |} |}.

Definition drained (c : Cmd) : cmdScanner :=
  {| cmd := c; started := true; waited := false; err := None;
     scanner := Some {| sc_rest := []; sc_fail := read_err c; sc_token := "";
                        sc_err := read_err c |} |}.

(** Reference readings of the output lines: the first line the pattern
    matches, and the first that also gets a non-empty label. *)
Fixpoint first_match (p : string -> submatch) (lines : list string)
  : option (string * match_t * list string) :=
  match lines with
  | [] => None
  | l :: rest => match p l with Some m => Some (l, m, rest) | None => first_match p rest end
  end.

Fixpoint first_label (p : string -> submatch) (r : match_t -> string) (lines : list string)
  : option (string * match_t * string * list string) :=
  match lines with
  | [] => None
  | l :: rest =>
    match p l with
    | Some m => if String.eqb (r m) "" then first_label p r rest else Some (l, m, r m, rest)
    | None => first_label p r rest
    end
  end.

Fixpoint all_matches (p : string -> submatch) (lines : list string) : list match_t :=
  match lines with
  | [] => []
  | l :: rest => match p l with Some m => m :: all_matches p rest | None => all_matches p rest end
  end.

(** The error the first [Scan] records when [StdoutPipe] or [Start] fails. *)
Definition launch_err (c : Cmd) : option error :=
  match pipe_err c with Some e => Some e | None => start_err c end.

(** Reference reading of what a deferred [Cleanup(&rerr)] leaves in a nil
    [rerr] for a started, not yet reaped scanner whose pending read error is
    [pending]: that error first, else the exit status unless it is a normal
    exit or a death by SIGKILL. *)
Definition cleanup_report (c : Cmd) (pending : option error) (p : proc_state) : option error :=
  match pending with
  | Some e => Some (ErrCommand (Args c) (ErrIO e))
  | None =>
    match exit_after_kill p with
    | Exited 0 => None
    | Signaled sig =>
      if Nat.eqb sig SIGKILL then None else Some (ErrCommand (Args c) (ErrExit (Signaled sig)))
    | ws => Some (ErrCommand (Args c) (ErrExit ws))
    end
  end.

End Cmds.

(* ------------------------------------------------------------------ *)
(** ** Install path: [run], [runInit] and their helpers                  *)
(* ------------------------------------------------------------------ *)

Module Init.

Import Scanner.

(** [const hookCmdName = "qmexmut.hook"] *)
Definition hookCmdName : string := "qmexmut.hook".

(** Errors of the install path, by the message that wraps them. *)
Inductive ierror :=
| IErr (e : error)                                (* returned as is *)
| IStdoutPipe (e : error)                         (* "failed to stdout pipe: %w" *)
| IStart (args : list string) (e : error)         (* "failed to start %q: %w" *)
| IDecode (args : list string) (e : error)        (* "failed to decode json from %q: %w" *)
| IFailed (args : list string) (e : option error) (* "%q failed: %w" *)
| ICreate (dest : string) (e : error)             (* "unable to create %q: %w" *)
| ISelfExe (e : option error)                     (* "unable to get self executable: %w" *)
| ISelfOpen (e : option error)                    (* "unable to open self executable: %w" *)
| ICopy (e : error).                              (* "failed to copy self executable: %w" *)

#[global] Instance error_eq_dec : EqDecision error.
Proof.
  intros x y. unfold Decision.
  decide equality;
    first [ apply String.string_dec | apply (List.list_eq_dec String.string_dec)
          | decide equality; apply Nat.eq_dec ].
Defined.

(** [strings.Split(s, ",")] *)
Fixpoint split_acc (s : string) (cur : string) : list string :=
  match s with
  | EmptyString => [cur]
  | String ch s' =>
    if Ascii.eqb ch ","%char then cur :: split_acc s' EmptyString
    else split_acc s' (cur ++ String ch EmptyString)
  end.

Definition Split (s : string) : list string := split_acc s EmptyString.

(** [func hasString(wanted string, ss []string) bool] *)
Fixpoint hasString (wanted : string) (ss : list string) : bool :=
  match ss with
  | [] => false
  | s :: ss' => if String.eqb s wanted then true else hasString wanted ss'
  end.

(** An element of [pvesh get /storage]:
    [struct { Name `json:"storage"`; Content `json:"content"`; Path `json:"path"` }] *)
Record storage := {
  st_Name : string;
  st_Content : string;
  st_Path : string
}.

(** An [*exec.Cmd] whose stdout [decodeJSONCommand] decodes: whether
    [StdoutPipe] and [Start] fail, what [Decode] returns and the value it
    fills in, and what [Wait] returns. *)
Record JSONCmd := {
  j_args : list string;
  j_pipe_err : option error;
  j_start_err : option error;
  j_decode_err : option error;
  j_value : list storage;
  j_wait_err : option error
}.

(** [func decodeJSONCommand(val interface{}, cmd *exec.Cmd) error] *)
Definition decodeJSONCommand (c : JSONCmd) : option ierror :=
  match j_pipe_err c with
  | Some e => Some (IStdoutPipe e)
  | None =>
    match j_start_err c with
    | Some e => Some (IStart (j_args c) e)
    | None =>
      let err := j_decode_err c in
      let werr := j_wait_err c in
      match err with
      | Some e => Some (IDecode (j_args c) e)
      | None =>
        match werr with
        | Some _ => Some (IFailed (j_args c) err)
        | None => None
        end
      end
    end
  end.

(** The loop of [findSnippets] over the decoded storages. *)
Fixpoint findSnippets_loop (stores : list storage) : string * string :=
  match stores with
  | [] => (EmptyString, EmptyString)
  | st :: rest =>
    if String.eqb (st_Path st) EmptyString then findSnippets_loop rest
    else if negb (hasString "snippets" (Split (st_Content st))) then findSnippets_loop rest
    else (st_Name st, st_Path st)
  end.

(** [func findSnippets() (store, dir string, _ error)] *)
Definition findSnippets (pvesh : JSONCmd) : string * string * option ierror :=
  match decodeJSONCommand pvesh with
  | Some e => (EmptyString, EmptyString, Some e)
  | None => let '(store, dir) := findSnippets_loop (j_value pvesh) in (store, dir, None)
  end.

(** What the operating system does on the copy path: [os.Executable],
    [os.Open(selfExe)], [io.Copy(dst, self)] (from a nil [*os.File] when
    the open failed), [os.OpenFile(dest, ...)] and the destination's
    [Close]. *)
Record InstallEnv := {
  exe_err : option error;
  open_err : option error;
  copy_err : option error;
  create_err : option error;
  close_err : option error
}.

(** [func copySelfInto(dst io.Writer) (rerr error)]; its two checks read
    [if err != err]. *)
Definition copySelfInto (env : InstallEnv) : option ierror :=
  let err := exe_err env in
  if negb (bool_decide (err = err)) then Some (ISelfExe err)
  else
    let err := open_err env in
    if negb (bool_decide (err = err)) then Some (ISelfOpen err)
    else
      match copy_err env with
      | Some e => Some (ICopy e)
      | None => None
      end.

(** [func copySelfTo(dest string) (rerr error)] *)
Definition copySelfTo (env : InstallEnv) (dest : string) : option ierror :=
  match create_err env with
  | Some e => Some (ICreate dest e)
  | None =>
    let rerr := copySelfInto env in
    (* defer: if err := f.Close(); rerr == nil { rerr = err } *)
    match rerr with
    | None => option_map IErr (close_err env)
    | Some _ => rerr
    end
  end.

(** [path.Clean], over the bytes of the path.  [out] is the lazybuf's
    contents [out.buf[:out.w]]; the inner loop that copies a real element
    is [copy_elem]. *)
Definition slash : ascii := "/"%char.
Definition dot : ascii := "."%char.

(** [out.w--; for out.w > dotdot && out.index(out.w) != '/' { out.w-- }]:
    the final [out.w], from [w] = the decremented one. *)
Fixpoint bt_w (out : list ascii) (dotdot w : nat) : nat :=
  match w with
  | O => O
  | S w' =>
    if (dotdot <? w) && negb (Ascii.eqb (nth w out slash) slash) then bt_w out dotdot w' else w
  end.

Fixpoint clean_loop (rooted : bool) (inp : list ascii) (out : list ascii) (dotdot : nat)
    {struct inp} : list ascii :=
  match inp with
  | [] => out
  | ch :: rest =>
    if Ascii.eqb ch slash then clean_loop rooted rest out dotdot       (* empty path element *)
    else if Ascii.eqb ch dot &&
            match rest with [] => true | c2 :: _ => Ascii.eqb c2 slash end
    then clean_loop rooted rest out dotdot                              (* . element *)
    else
      match rest with
      | c2 :: rest2 =>
        if Ascii.eqb ch dot && Ascii.eqb c2 dot &&
           match rest2 with [] => true | c3 :: _ => Ascii.eqb c3 slash end
        then                                                            (* .. element *)
          if dotdot <? length out then
            clean_loop rooted rest2 (firstn (bt_w out dotdot (length out - 1)) out) dotdot
          else if negb rooted then
            let out' := (if 0 <? length out then out ++ [slash] else out) ++ [dot; dot] in
            clean_loop rooted rest2 out' (length out')
          else clean_loop rooted rest2 out dotdot
        else                                                            (* real path element *)
          let out' := if (rooted && negb (length out =? 1)) || (negb rooted && negb (length out =? 0))
                      then out ++ [slash] else out in
          copy_elem rooted rest (out' ++ [ch]) dotdot
      | [] =>
        let out' := if (rooted && negb (length out =? 1)) || (negb rooted && negb (length out =? 0))
                    then out ++ [slash] else out in
        copy_elem rooted rest (out' ++ [ch]) dotdot
      end
  end
with copy_elem (rooted : bool) (inp : list ascii) (out : list ascii) (dotdot : nat)
    {struct inp} : list ascii :=
  match inp with
  | [] => out
  | ch :: rest =>
    if Ascii.eqb ch slash then clean_loop rooted rest out dotdot
    else copy_elem rooted rest (out ++ [ch]) dotdot
  end.

Definition Clean (p : string) : string :=
  match list_ascii_of_string p with
  | [] => "."
  | c0 :: rest =>
    let rooted := Ascii.eqb c0 slash in
    let out := if rooted then clean_loop true rest [slash] 1
               else clean_loop false (c0 :: rest) [] 0 in
    match out with
    | [] => "."
    | _ => string_of_list_ascii out
    end
  end.

(** [path.Join(elem ...string)] *)
Definition Join (elem : list string) : string :=
  let size := list_sum (map String.length elem) in
  if Nat.eqb size 0 then EmptyString
  else
    let buf := fold_left (fun buf e =>
                 if Nat.ltb 0 (String.length buf) || negb (String.eqb e EmptyString) then
                   ((if Nat.ltb 0 (String.length buf) then buf ++ "/" else buf) ++ e)%string
                 else buf) elem EmptyString in
    Clean buf.

Fixpoint drop_slashes (l : list ascii) : list ascii :=
  match l with
  | ch :: rest => if Ascii.eqb ch slash then drop_slashes rest else l
  | [] => []
  end.

Fixpoint upto_slash (l : list ascii) : list ascii :=
  match l with
  | ch :: rest => if Ascii.eqb ch slash then [] else ch :: upto_slash rest
  | [] => []
  end.

(** [path.Base]: strip trailing slashes, keep what follows the last
    slash, "/" when only slashes were left. *)
Definition Base (p : string) : string :=
  if String.eqb p EmptyString then "."
  else
    let path := rev (drop_slashes (rev (list_ascii_of_string p))) in
    let path := rev (upto_slash (rev path)) in
    match path with
    | [] => "/"
    | _ => string_of_list_ascii path
    end.

(** Which of [runRemote], [runHook] and [runInit] [main] ends up in. *)
Inductive target :=
| RunRemote (server : string) (args : list string)
| RunHook (cmdName : string) (args : list string)
| RunInit (args : list string).

(** [main] ([cmdName := path.Base(os.Args[0])]) and [func run(cmdName
    string) error] after [flag.Parse()], with the values of [-ssh] and
    [-cmd] and the positional arguments; [-rm] only defers a removal. *)
Definition run (argv0 server cmdFlag : string) (args : list string) : target :=
  let cmdName := Base argv0 in
  if negb (String.eqb server EmptyString) then RunRemote server args
  else
    let cmdName := if negb (String.eqb cmdFlag EmptyString) then cmdFlag else cmdName in
    if String.eqb cmdName hookCmdName then RunHook cmdName args else RunInit args.

(** [hookScript := fmt.Sprintf("%s:snippets/%s", snippetStore, hookCmdName)] *)
Definition hookScript (store : string) : string := (store ++ ":snippets/" ++ hookCmdName)%string.

(** [hookDest := path.Join(storeDir, "snippets", hookCmdName)] *)
Definition hookDest (dir : string) : string := Join [dir; "snippets"; hookCmdName].

(** The host as [runInit] sees it. *)
Record InitWorld := {
  pvesh : JSONCmd;                  (* pvesh get /storage --output-format json *)
  install : InstallEnv;
  qm_list_cmd : Cmd;                (* qm list *)
  qm_config_cmd : string -> Cmd     (* qm config <id> *)
}.

Inductive init_event :=
| LogWouldCopy (dest : string)      (* "would copy self execuable to %q" *)
| LogCopied (dest : string)         (* "copied self execuable to %q" *)
| Task (ev : Hook.event).           (* from maybeRun in a task *)

Definition set_hook_args (id script : string) : list string :=
  ["qm"; "set"; id; "--hookscript"; script].

(** The task [runInit] launches for each listed guest. *)
Definition hookTask (dryRun : bool) (exec_result : list string -> option error)
    (config : string -> Cmd) (script id : string) : list Hook.event * option error :=
  let '(should, err) := Cmds.shouldHook config id in
  match err with
  | Some e => ([], Some e)
  | None => if should then Hook.maybeRun dryRun exec_result (set_hook_args id script) else ([], None)
  end.

(** The errgroup of [runInit]: the listing task (its result is
    [cmm.Err()]) and one task per listed guest, finishing in any order;
    [g.Wait()] returns the first error in that order. *)
Definition init_tasks (w : InitWorld) (dryRun : bool) (exec_result : list string -> option error)
    (script : string) : list (list Hook.event * option error) :=
  let '(rows, lerr) := Cmds.qmListRows (qm_list_cmd w) in
  ([], lerr) :: map (fun m => hookTask dryRun exec_result (qm_config_cmd w) script (MatchText m 1)) rows.

Inductive initGroup (outs : list (list Hook.event * option error))
  : list Hook.event -> option error -> Prop :=
| init_group_wait order :
    Permutation order outs ->
    initGroup outs (concat (map fst order)) (Hook.first_error (map snd order)).

(** [func runInit(args []string) error]: the events and the error. *)
Inductive runInit (w : InitWorld) (dryRun : bool) (exec_result : list string -> option error)
  : list init_event -> option ierror -> Prop :=
| init_snippets_failed store dir e :
    findSnippets (pvesh w) = (store, dir, Some e) ->
    runInit w dryRun exec_result [] (Some e)
| init_copy_failed store dir e :
    findSnippets (pvesh w) = (store, dir, None) -> dryRun = false ->
    copySelfTo (install w) (hookDest dir) = Some e ->
    runInit w dryRun exec_result [] (Some e)
| init_group store dir tr e :
    findSnippets (pvesh w) = (store, dir, None) ->
    (if dryRun then True else copySelfTo (install w) (hookDest dir) = None) ->
    initGroup (init_tasks w dryRun exec_result (hookScript store)) tr e ->
    runInit w dryRun exec_result
      ((if dryRun then LogWouldCopy (hookDest dir) else LogCopied (hookDest dir)) :: map Task tr)
      (option_map IErr e).

(** Invariants of the [path.Clean] loop used in the proofs: a rooted
    path's output keeps its leading slash and [dotdot] stays at least 1;
    a prefix that ends at a separator. *)
Definition clean_inv (rooted : bool) (out : list ascii) (dd : nat) : Prop :=
  rooted = true -> (exists t, out = slash :: t) /\ 1 <= dd.

Definition ends_dir (o : list ascii) : Prop := o = [] \/ exists o', o = o' ++ [slash].

End Init.

(* ------------------------------------------------------------------ *)
(** ** Sample commands used to evaluate the model                        *)
(* ------------------------------------------------------------------ *)

(** [qm list] with its header line and one guest row. *)
Definition sample_list_cmd : Scanner.Cmd :=
  {| Scanner.Args := ["qm"; "list"]%string;
     Scanner.pipe_err := None; Scanner.start_err := None;
     Scanner.output :=
       ["      VMID NAME                 STATUS     MEM(MB)    BOOTDISK(GB) PID       ";
        "       101 winvm                running    8192              64.00 4242      "]%string;
     Scanner.read_err := None |}.

(** A started [qm config 101] scanner that has read all of its output. *)
Definition sample_drained_scanner : Scanner.cmdScanner :=
  {| Scanner.cmd := {| Scanner.Args := ["qm"; "config"; "101"]%string;
                       Scanner.pipe_err := None; Scanner.start_err := None;
                       Scanner.output := []; Scanner.read_err := None |};
     Scanner.started := true; Scanner.waited := false; Scanner.err := None;
     Scanner.scanner := Some {| Scanner.sc_rest := []; Scanner.sc_fail := None;
                                Scanner.sc_token := ""; Scanner.sc_err := None |} |}.

(** Three guests: 101 and 102 pass through the same PCI device, 103 has
    no passed-through device; every command succeeds. *)
Definition sample_qm_list : list string :=
  ["      VMID NAME                 STATUS     MEM(MB)    BOOTDISK(GB) PID       ";
   "       101 winvm                running    8192              64.00 4242      ";
   "       102 linvm                stopped    2048              32.00 0         ";
   "       103 other                running    1024              16.00 4343      "]%string.

Definition sample_config (vmid : string) : Hook.ConfigRun :=
  let lines :=
    if String.eqb vmid "101" then
      ["boot: order=scsi0"; "hostpci0: 0000:01:00.0,pcie=1"; "name: winvm"]%string
    else if String.eqb vmid "102" then
      ["hostpci0: 0000:01:00.0"; "name: linvm"; "usb0: host=1-1.2"]%string
    else ["ide2: local:iso/win.iso,media=cdrom"; "name: other"]%string in
  {| Hook.cfg_lines := lines; Hook.cfg_err_full := None; Hook.cfg_err_early := None |}.

Definition sample_world : Hook.World :=
  {| Hook.qm_list := sample_qm_list; Hook.qm_list_err := None;
     Hook.qm_config := sample_config |}.

(** Mutual records of every kind, and a [qm shutdown] that fails for every
    guest with an error naming it. *)
Definition sample_recs : list Hook.listRec :=
  [{| Hook.id := "101"; Hook.name := "winvm"; Hook.status := "running" |};
   {| Hook.id := "102"; Hook.name := "linvm"; Hook.status := "stopped" |};
   {| Hook.id := "104"; Hook.name := "bsdvm"; Hook.status := "paused" |};
   {| Hook.id := "103"; Hook.name := "other"; Hook.status := "running" |}]%string.

Definition sample_exec (args : list string) : option Scanner.error :=
  match args with
  | [_; _; v] => Some (Scanner.ErrText ("shutdown " ++ v ++ " timed out"))%string
  | _ => None
  end.

(** [qm config <id>] for the sample guests, as commands. *)
Definition sample_config_cmd (vmid : string) : Scanner.Cmd :=
  {| Scanner.Args := ["qm"; "config"; vmid]%string;
     Scanner.pipe_err := None; Scanner.start_err := None;
     Scanner.output := Hook.cfg_lines (sample_config vmid);
     Scanner.read_err := None |}.

(** A command whose [Start] fails. *)
Definition sample_start_err : Scanner.error :=
  Scanner.ErrText "exec: qm: executable file not found in $PATH".

Definition sample_failed_cmd : Scanner.Cmd :=
  {| Scanner.Args := ["qm"; "config"; "101"]%string;
     Scanner.pipe_err := None; Scanner.start_err := Some sample_start_err;
     Scanner.output := []; Scanner.read_err := None |}.

(** [qm list] with the three sample guests. *)
Definition sample_qm_list_cmd : Scanner.Cmd :=
  {| Scanner.Args := ["qm"; "list"]%string;
     Scanner.pipe_err := None; Scanner.start_err := None;
     Scanner.output := sample_qm_list; Scanner.read_err := None |}.

(** Storages of [pvesh get /storage]: a directory storage without
    snippets, and one holding them. *)
Definition sample_local : Init.storage :=
  {| Init.st_Name := "local"; Init.st_Content := "iso,vztmpl,backup";
     Init.st_Path := "/var/lib/vz" |}%string.

Definition sample_snip : Init.storage :=
  {| Init.st_Name := "snip"; Init.st_Content := "images,snippets";
     Init.st_Path := "/mnt/pve/snip" |}%string.

Definition pvesh_args : list string :=
  ["pvesh"; "get"; "/storage"; "--output-format"; "json"]%string.

Definition sample_pvesh (stores : list Init.storage) (decode_err wait_err : option Scanner.error)
  : Init.JSONCmd :=
  {| Init.j_args := pvesh_args; Init.j_pipe_err := None; Init.j_start_err := None;
     Init.j_decode_err := decode_err; Init.j_value := stores; Init.j_wait_err := wait_err |}.

Definition sample_install : Init.InstallEnv :=
  {| Init.exe_err := None; Init.open_err := None; Init.copy_err := None;
     Init.create_err := None; Init.close_err := None |}.

Definition sample_init_world : Init.InitWorld :=
  {| Init.pvesh := sample_pvesh [sample_local; sample_snip] None None;
     Init.install := sample_install;
     Init.qm_list_cmd := sample_qm_list_cmd;
     Init.qm_config_cmd := sample_config_cmd |}.

(* ------------------------------------------------------------------ *)
(** ** Facts about strings and the backtracking search                  *)
(* ------------------------------------------------------------------ *)

Lemma get_ge_length (s : string) (k : nat) :
  String.length s <= k -> String.get k s = None.
Proof.
  revert k; induction s as [|c s IH]; intros k Hk; [reflexivity|].
  destruct k as [|k]; simpl in *; [lia|]. apply IH. lia.
Qed.

Lemma get_Some_le (s : string) (n m : nat) (c : ascii) :
  String.get n s = Some c -> m <= n -> exists c', String.get m s = Some c'.
Proof.
  revert n m; induction s as [|d s IH]; intros n m Hn Hle; [discriminate|].
  destruct m as [|m]; [eexists; reflexivity|].
  destruct n as [|n]; [lia|]. simpl in *. eapply IH; [exact Hn|lia].
Qed.

Lemma char_at_true (s : string) (k : nat) (P : ascii -> bool) :
  char_at s k P = true <-> exists c, String.get k s = Some c /\ P c = true.
Proof.
  unfold char_at. destruct (String.get k s) as [c|]; split.
  - intros H. eauto.
  - intros (c' & [= <-] & H). exact H.
  - discriminate.
  - intros (c' & H & _). discriminate.
Qed.

Lemma run_end_from_spec (P : ascii -> bool) (s : string) (fuel i : nat) :
  String.length s <= i + fuel ->
  let r := run_end_from P s i fuel in
  i <= r /\ (forall k, i <= k < r -> char_at s k P = true) /\ char_at s r P = false.
Proof.
  revert i; induction fuel as [|fuel IH]; intros i Hlen; simpl.
  - split; [lia|]. split; [intros; lia|].
    unfold char_at. rewrite get_ge_length by lia. reflexivity.
  - destruct (char_at s i P) eqn:Hc.
    + destruct (IH (S i)) as (H1 & H2 & H3); [lia|].
      split; [lia|]. split; [|exact H3].
      intros k Hk. destruct (Nat.eq_dec k i) as [->|Hne]; [exact Hc|].
      apply H2. lia.
    + split; [lia|]. split; [intros; lia|exact Hc].
Qed.

Lemma run_end_spec (P : ascii -> bool) (s : string) (i : nat) :
  i <= run_end P s i /\
  (forall k, i <= k < run_end P s i -> char_at s k P = true) /\
  char_at s (run_end P s i) P = false.
Proof. apply run_end_from_spec. lia. Qed.

Lemma run_end_unique (P : ascii -> bool) (s : string) (i j : nat) :
  i <= j -> (forall k, i <= k < j -> char_at s k P = true) ->
  char_at s j P = false -> run_end P s i = j.
Proof.
  intros Hij Hin Hout. destruct (run_end_spec P s i) as (H1 & H2 & H3).
  destruct (Nat.lt_trichotomy (run_end P s i) j) as [Hlt|[Heq|Hgt]]; [|exact Heq|].
  - rewrite Hin in H3 by lia. discriminate.
  - rewrite H2 in Hout by lia. discriminate.
Qed.

Lemma first_some_seq_Some {B} (f : nat -> option B) (a n : nat) (y : B) :
  first_some f (seq a n) = Some y ->
  exists x, a <= x < a + n /\ f x = Some y /\ (forall z, a <= z < x -> f z = None).
Proof.
  revert a; induction n as [|n IH]; intros a H; simpl in H; [discriminate|].
  destruct (f a) eqn:Ha.
  - injection H as <-. exists a. split; [lia|]. split; [exact Ha|]. intros; lia.
  - destruct (IH (S a) H) as (x & Hx & Hfx & Hbefore).
    exists x. split; [lia|]. split; [exact Hfx|].
    intros z Hz. destruct (Nat.eq_dec z a) as [->|]; [exact Ha|]. apply Hbefore. lia.
Qed.

Lemma first_some_seq_None {B} (f : nat -> option B) (a n : nat) :
  first_some f (seq a n) = None -> forall x, a <= x < a + n -> f x = None.
Proof.
  revert a; induction n as [|n IH]; intros a H x Hx; simpl in H; [lia|].
  destruct (f a) eqn:Ha; [discriminate|].
  destruct (Nat.eq_dec x a) as [->|]; [exact Ha|]. apply (IH (S a) H). lia.
Qed.

(** A greedy [X+] followed by the end of the pattern takes the whole run. *)
Lemma greedy_plus_last {B} (g : nat -> B) (P : ascii -> bool) (s : string) (i : nat) :
  first_some (fun e => Some (g e)) (greedy_plus P s i) =
  if i <? run_end P s i then Some (g (run_end P s i)) else None.
Proof.
  unfold greedy_plus. destruct (run_end_spec P s i) as (Hle & _ & _).
  destruct (Nat.ltb_spec i (run_end P s i)) as [Hlt|Hge].
  - destruct (run_end P s i - i) as [|k] eqn:Hk; [lia|].
    rewrite seq_S, rev_app_distr. simpl. f_equal. f_equal. lia.
  - replace (run_end P s i - i) with 0 by lia. reflexivity.
Qed.

Lemma IndexByte_spec (v : string) (c : ascii) :
  match IndexByte v c with
  | Some i => ~ In c (list_ascii_of_string (substring 0 i v)) /\
              exists rest, v = (substring 0 i v ++ String c rest)%string
  | None => ~ In c (list_ascii_of_string v)
  end.
Proof.
  induction v as [|c' v IH]; simpl; [tauto|].
  destruct (ascii_dec c' c) as [->|Hne].
  - simpl. split; [tauto|]. exists v. reflexivity.
  - destruct (IndexByte v c) as [i|]; simpl.
    + destruct IH as (Hnin & rest & Hv). split.
      * simpl. intros [H|H]; [congruence|tauto].
      * exists rest. transitivity (String c' (substring 0 i v ++ String c rest))%string;
        [f_equal; exact Hv | reflexivity].
    + intros [H|H]; [congruence|tauto].
Qed.

(* ------------------------------------------------------------------ *)
(** ** The search of [usbHostPat]                                        *)
(* ------------------------------------------------------------------ *)

Lemma host_prefix_h (v : string) (p : nat) :
  substring p 5 v = "host="%string -> String.get p v = Some "h"%char.
Proof.
  intros H. pose proof (substring_correct1 v p 5 0 ltac:(lia)) as Hg.
  rewrite H in Hg. simpl in Hg. symmetry. exact Hg.
Qed.

Lemma host_boundary_iff (v : string) (p : nat) :
  substring p 5 v = "host="%string ->
  (word_boundary v p = true <->
   (p = 0 \/ exists c, String.get (pred p) v = Some c /\ is_word c = false)).
Proof.
  intros Hs. pose proof (host_prefix_h v p Hs) as Hh.
  unfold word_boundary. replace (char_at v p is_word) with true
    by (unfold char_at; rewrite Hh; reflexivity).
  destruct p as [|k]; simpl; [tauto|].
  destruct (get_Some_le v (S k) k _ Hh ltac:(lia)) as (c & Hc).
  unfold char_at. rewrite Hc. split.
  - intros H. right. exists c. split; [reflexivity|]. destruct (is_word c); [discriminate|reflexivity].
  - intros [H|(c' & Hc' & Hw)]; [discriminate|]. injection Hc' as <-.
    rewrite Hw. reflexivity.
Qed.

Lemma not_comma_true (c : ascii) : not_comma c = true <-> c <> ","%char.
Proof.
  unfold not_comma. rewrite negb_true_iff, Ascii.eqb_neq. tauto.
Qed.

Lemma usbHost_at_Some (v : string) (p : nat) (y : list (option string)) :
  usbHost_at v p = Some y ->
  host_fragment v p (run_end not_comma v (p + 5)) /\
  y = [Some (sub v p (run_end not_comma v (p + 5)));
       Some (sub v (p + 5) (run_end not_comma v (p + 5)))].
Proof.
  unfold usbHost_at. destruct (word_boundary v p && String.eqb (substring p 5 v) "host=")
    eqn:Hb; [|discriminate].
  rewrite greedy_plus_last.
  destruct (Nat.ltb_spec (p + 5) (run_end not_comma v (p + 5))) as [Hlt|]; [|discriminate].
  intros [= <-]. split; [|reflexivity].
  apply andb_true_iff in Hb as [Hw Hs]. apply String.eqb_eq in Hs.
  destruct (run_end_spec not_comma v (p + 5)) as (_ & Hin & Hout).
  split; [apply host_boundary_iff; assumption|].
  split; [exact Hs|]. split; [exact Hlt|]. split.
  - intros k Hk. destruct (proj1 (char_at_true _ _ _) (Hin k Hk)) as (c & Hc & Hnc).
    exists c. split; [exact Hc|]. apply not_comma_true. exact Hnc.
  - unfold char_at in Hout. destruct (String.get _ v) as [c|]; [right|left; reflexivity].
    destruct (ascii_dec c ","%char) as [->|Hne]; [reflexivity|].
    apply not_comma_true in Hne. congruence.
Qed.

Lemma host_fragment_at (v : string) (p e : nat) :
  host_fragment v p e ->
  e = run_end not_comma v (p + 5) /\
  usbHost_at v p = Some [Some (sub v p e); Some (sub v (p + 5) e)].
Proof.
  intros (Hb & Hs & Hlt & Hin & Hout).
  assert (He : run_end not_comma v (p + 5) = e).
  { apply run_end_unique; [lia| |].
    - intros k Hk. destruct (Hin k Hk) as (c & Hc & Hne).
      apply char_at_true. exists c. split; [exact Hc|]. apply not_comma_true. exact Hne.
    - unfold char_at. destruct Hout as [-> | ->]; reflexivity. }
  split; [symmetry; exact He|].
  unfold usbHost_at. rewrite <- host_boundary_iff in Hb by exact Hs.
  rewrite Hb, Hs. simpl. rewrite greedy_plus_last, He.
  destruct (Nat.ltb_spec (p + 5) e); [reflexivity|lia].
Qed.

Lemma host_fragment_lt (v : string) (p e : nat) :
  host_fragment v p e -> p < String.length v.
Proof.
  intros (_ & Hs & _). pose proof (host_prefix_h v p Hs) as Hh.
  destruct (Nat.lt_ge_cases p (String.length v)) as [|Hge]; [assumption|].
  rewrite get_ge_length in Hh by exact Hge. discriminate.
Qed.

(** [usbHostPat] finds the leftmost fragment, and its whole token. *)
Lemma usbHostPat_spec (v : string) :
  (exists p e, host_fragment v p e /\ (forall q e', q < p -> ~ host_fragment v q e') /\
     usbHostPat v = Some [Some (sub v p e); Some (sub v (p + 5) e)]) \/
  ((forall p e, ~ host_fragment v p e) /\ usbHostPat v = None).
Proof.
  unfold usbHostPat, starts. destruct (first_some (usbHost_at v) _) as [y|] eqn:H.
  - left. apply first_some_seq_Some in H as (x & _ & Hx & Hbefore).
    apply usbHost_at_Some in Hx as (Hf & ->).
    exists x, (run_end not_comma v (x + 5)). split; [exact Hf|]. split; [|reflexivity].
    intros q e' Hq Hf'. apply host_fragment_at in Hf' as (_ & Hat).
    rewrite Hbefore in Hat by lia. discriminate.
  - right. split; [|reflexivity]. intros p e Hf.
    pose proof (host_fragment_lt v p e Hf) as Hlt.
    apply host_fragment_at in Hf as (_ & Hat).
    rewrite (first_some_seq_None _ _ _ H p) in Hat by lia. discriminate.
Qed.

Lemma classify_eq (key value : string) :
  classify key value =
  (if String.prefix "hostpci" key then
     ("hostpci:" ++ match IndexByte value ","%char with
                    | Some i => substring 0 i value | None => value end)%string
   else if String.prefix "usb" key then
     match usbHostPat value with
     | Some m => if 0 <? length m then ("hostusb:" ++ MatchText m 1)%string else ""%string
     | None => ""%string
     end
   else ""%string).
Proof. reflexivity. Qed.

(** C1 (amended): the classification rule of [labelHostResource].  A
    [hostpci*] key gives ["hostpci:"] and the value up to its first comma;
    otherwise a [usb*] key gives ["hostusb:"] and the token of the leftmost
    [host=] fragment of the value that starts on a word boundary and has a
    non-empty comma-free token, when there is one; anything else gives the
    empty label.  The four examples of the specification hold. *)
Theorem classify_spec :
  (forall key value,
    (String.prefix "hostpci" key = true ->
       exists t, classify key value = ("hostpci:" ++ t)%string /\
         ~ In ","%char (list_ascii_of_string t) /\
         (value = t \/ exists rest, value = (t ++ String ","%char rest)%string)) /\
    (String.prefix "hostpci" key = false -> String.prefix "usb" key = true ->
       (exists p e, host_fragment value p e /\
          (forall q e', q < p -> ~ host_fragment value q e') /\
          classify key value = ("hostusb:" ++ substring (p + 5) (e - (p + 5)) value)%string) \/
       ((forall p e, ~ host_fragment value p e) /\ classify key value = ""%string)) /\
    (String.prefix "hostpci" key = false -> String.prefix "usb" key = false ->
       classify key value = ""%string)) /\
  classify "hostpci0" "0000:01:00.0,pcie=1" = "hostpci:0000:01:00.0"%string /\
  classify "usb0" "host=1-1.2" = "hostusb:1-1.2"%string /\
  classify "usb0" "spice" = ""%string /\
  classify "ide2" "local:iso/win.iso,media=cdrom" = ""%string.
Proof.
  split; [|vm_compute; repeat split].
  intros key value. rewrite !classify_eq. split; [|split].
  - intros ->. pose proof (IndexByte_spec value ","%char) as Hi.
    destruct (IndexByte value ","%char) as [i|].
    + destruct Hi as (Hnin & rest & Hv). eexists. split; [reflexivity|].
      split; [exact Hnin|]. right. exists rest. exact Hv.
    + eexists. split; [reflexivity|]. split; [exact Hi|]. left. reflexivity.
  - intros -> ->. destruct (usbHostPat_spec value) as
      [(p & e & Hf & Hleft & ->)|(Hnone & ->)].
    + left. exists p, e. split; [exact Hf|]. split; [exact Hleft|]. reflexivity.
    + right. split; [exact Hnone|reflexivity].
  - intros -> ->. reflexivity.
Qed.

(** C1 (as stated): a literal [host=<token>] fragment of a [usb*] value does
    not always produce a label: in ["xhost=1-1.2"] the fragment does not start
    on a word boundary, so [usbHostPat] does not match and the label is "". *)
Lemma classify_literal_fragment_fails :
  ~ (forall key value,
       String.prefix "hostpci" key = false -> String.prefix "usb" key = true ->
       (exists t, literal_host_fragment value t) ->
       exists t, literal_host_fragment value t /\
         classify key value = ("hostusb:" ++ t)%string).
Proof.
  intros H.
  destruct (H "usb0"%string "xhost=1-1.2"%string) as (t & _ & Ht);
    [reflexivity|reflexivity| |].
  - exists "1-1.2"%string, "x"%string, ""%string. split; [reflexivity|].
    split; [left; reflexivity|]. simpl. intuition discriminate.
  - vm_compute in Ht. discriminate.
Qed.

(* ------------------------------------------------------------------ *)
(** ** Line Stream and Pattern Filter                                    *)
(* ------------------------------------------------------------------ *)

Import Scanner.

Lemma Scan_err (c : cmdScanner) (e : error) : err c = Some e -> Scan c = (false, c).
Proof. intros H. unfold Scan. rewrite H. reflexivity. Qed.

Lemma Err_err (c : cmdScanner) (e : error) : err c = Some e -> Err c = (Some e, c).
Proof. intros H. unfold Err. rewrite H. reflexivity. Qed.

Lemma Cleanup_err (c : cmdScanner) (e : error) errp p :
  err c = Some e ->
  err (Cleanup c errp p).1.1 = Some e /\
  (Cleanup c errp p).1.2 =
    match errp with Some None => Some (Some (ErrCommand (Args (cmd c)) e)) | _ => errp end.
Proof.
  destruct c as [cm st wt er sc]. simpl. intros ->.
  unfold Cleanup. destruct st; simpl; (split; [reflexivity|]);
    destruct errp as [[|]|]; reflexivity.
Qed.

Lemma run_ops_err (c : cmdScanner) (e : error) (ops : list op) :
  err c = Some e ->
  err (fst (run_ops c ops)) = Some e /\
  Forall (fun o => match o with
                   | ObsScan ok => ok = false
                   | ObsErr r => r = Some e
                   | ObsCleanup _ _ => True
                   end) (snd (run_ops c ops)).
Proof.
  revert c; induction ops as [|o ops IH]; intros c Hc; simpl; [split; [exact Hc|constructor]|].
  destruct o as [| |errp p].
  - rewrite (Scan_err c e Hc). destruct (run_ops c ops) as [c' os] eqn:Hr.
    destruct (IH c Hc) as [H1 H2]. rewrite Hr in H1, H2. simpl in *.
    split; [exact H1|]. constructor; [reflexivity|exact H2].
  - rewrite (Err_err c e Hc). destruct (run_ops c ops) as [c' os] eqn:Hr.
    destruct (IH c Hc) as [H1 H2]. rewrite Hr in H1, H2. simpl in *.
    split; [exact H1|]. constructor; [reflexivity|exact H2].
  - destruct (Cleanup_err c e errp p Hc) as [Hk _].
    destruct (Cleanup c errp p) as [[c1 errp'] effs]. simpl in Hk.
    destruct (run_ops c1 ops) as [c' os] eqn:Hr.
    destruct (IH c1 Hk) as [H1 H2]. rewrite Hr in H1, H2. simpl in *.
    split; [exact H1|]. constructor; [exact I|exact H2].
Qed.

(** C6: the scanner's error is sticky and the first one wins.  Once [err]
    holds an error, [Scan] returns false and leaves the scanner untouched
    (nothing read, nothing started), [Err] returns that error, and
    [Cleanup] keeps it whatever the process's exit status and reports that
    same error; over any sequence of calls the error stays and every [Scan]
    is false and every [Err] returns it. *)
Theorem scanner_error_sticky :
  (forall c e, err c = Some e -> Scan c = (false, c)) /\
  (forall c e, err c = Some e -> Err c = (Some e, c)) /\
  (forall c e errp p, err c = Some e ->
     err (Cleanup c errp p).1.1 = Some e /\
     (Cleanup c errp p).1.2 =
       match errp with Some None => Some (Some (ErrCommand (Args (cmd c)) e)) | _ => errp end) /\
  (forall c e ops, err c = Some e ->
     err (fst (run_ops c ops)) = Some e /\
     Forall (fun o => match o with
                      | ObsScan ok => ok = false
                      | ObsErr r => r = Some e
                      | ObsCleanup _ _ => True
                      end) (snd (run_ops c ops))).
Proof.
  split; [exact Scan_err|]. split; [exact Err_err|].
  split; [exact Cleanup_err|exact run_ops_err].
Qed.

(** C7 (amended): [Cleanup] on a started, not yet reaped process kills it
    and reaps it, writes the error pointer at most once and only when it
    is non-nil and holds no error, reports the scanner's earlier error or
    pending I/O error first, and otherwise reports the exit status, wrapped
    with the command's arguments, unless it is a normal exit or a death by
    SIGKILL, whether that SIGKILL is the one [Cleanup] sent to a running
    process or one the process had already died of. *)
Theorem cleanup_reports :
  forall c errp p, started c = true -> waited c = false ->
  (Cleanup c errp p).2 = [EKill; EWait] /\
  waited (Cleanup c errp p).1.1 = true /\
  (forall cur, errp = Some (Some cur) -> (Cleanup c errp p).1.2 = errp) /\
  (errp = None -> (Cleanup c errp p).1.2 = None) /\
  (forall e, fst (Err c) = Some e -> errp = Some None ->
     (Cleanup c errp p).1.2 = Some (Some (ErrCommand (Args (cmd c)) e))) /\
  (fst (Err c) = None ->
     (p = Running \/ p = Terminated (Signaled SIGKILL) \/ p = Terminated (Exited 0)) ->
     (Cleanup c errp p).1.2 = errp) /\
  (fst (Err c) = None -> forall ws, p = Terminated ws ->
     ws <> Signaled SIGKILL -> ws <> Exited 0 -> errp = Some None ->
     (Cleanup c errp p).1.2 = Some (Some (ErrCommand (Args (cmd c)) (ErrExit ws)))).
Proof.
  intros [cm st wt er sc] errp p Hst Hwt; simpl in Hst, Hwt; subst st wt.
  unfold Cleanup, Err, cmd_wait, isKillError, set_waited, set_err; simpl.
  destruct er as [e0|]; [|destruct sc as [b|]; [destruct (sc_err b) as [e1|] eqn:Hb|]];
    simpl; try rewrite Hb;
    destruct p as [|[[|n]|sig]]; simpl;
    try (destruct (Nat.eqb_spec sig SIGKILL) as [->|Hsig]); simpl;
    (split; [reflexivity|]); (split; [reflexivity|]);
    repeat split; intros; subst; simpl in *;
    try discriminate; try congruence;
    repeat match goal with
           | H : _ \/ _ |- _ => destruct H
           end; try discriminate; try congruence.
Qed.

(** C7 (as stated): an abnormal exit that the SIGKILL of [Cleanup] did not
    cause is not always reported: a process that had already died of a
    SIGKILL from elsewhere is reaped silently. *)
Lemma cleanup_external_sigkill_unreported :
  ~ (forall c errp ws,
       started c = true -> waited c = false -> fst (Err c) = None ->
       errp = Some None -> ws <> Exited 0 ->
       (Cleanup c errp (Terminated ws)).1.2 <> Some None).
Proof.
  intros H. apply (H sample_drained_scanner (Some None) (Signaled SIGKILL));
    try reflexivity; try discriminate.
Qed.

Lemma matcher_loop_spec (fuel : nat) (p : string -> submatch) (c : cmdScanner) :
  let '(ok, c', mt) := matcher_loop fuel p c in
  (ok = true -> p (Bytes c') = Some mt) /\ (ok = false -> mt = []).
Proof.
  revert c; induction fuel as [|fuel IH]; intros c; simpl; [split; [discriminate|reflexivity]|].
  destruct (Scan c) as [[|] c'].
  - destruct (p (Bytes c')) as [m|] eqn:Hp; [split; [intros _; exact Hp|discriminate]|].
    apply IH.
  - split; [discriminate|reflexivity].
Qed.

(** C9 (amended): after [Scan] of a [cmdMatcher], the match it holds is
    the pattern's [FindSubmatch] of the line just read when [Scan] returned
    true, and nil when it returned false.  [MatchText i] and [Match i] give
    entry [i] of that match for an index below its length (entry 0 is the
    text of the whole pattern match, groups from 1), and "" and nil for any
    index at or beyond it. *)
Theorem matcher_scan_spec :
  forall m ok m', MatcherScan m = (ok, m') ->
  pat m' = pat m /\
  (ok = true -> pat m (Bytes (msc m')) = Some (mmatch m')) /\
  (ok = false -> mmatch m' = []) /\
  (forall i, i < length (mmatch m') ->
     MatchText (mmatch m') i =
       match nth i (mmatch m') None with Some t => t | None => ""%string end /\
     Match (mmatch m') i = nth i (mmatch m') None) /\
  (forall i, length (mmatch m') <= i ->
     MatchText (mmatch m') i = ""%string /\ Match (mmatch m') i = None).
Proof.
  intros m ok m'. unfold MatcherScan.
  pose proof (matcher_loop_spec (S (S (lines_left (msc m)))) (pat m) (msc m)) as Hl.
  destruct (matcher_loop _ (pat m) (msc m)) as [[ok' c] mt].
  intros [= <- <-]. simpl. destruct Hl as [Ht Hf].
  split; [reflexivity|]. split; [exact Ht|]. split; [exact Hf|]. split.
  - intros i Hi. unfold MatchText, Match. apply Nat.ltb_lt in Hi. rewrite Hi. split; reflexivity.
  - intros i Hi. unfold MatchText, Match. apply Nat.ltb_ge in Hi. rewrite Hi. split; reflexivity.
Qed.

(** C9 (as stated): [MatchText 0] is not the raw line.  On a [qm list]
    row, [listPat] matches from the guest id to the blank after the status,
    without the leading blanks and the trailing columns. *)
Lemma matchtext0_not_raw_line :
  ~ (forall m m', MatcherScan m = (true, m') -> MatchText (mmatch m') 0 = Bytes (msc m')).
Proof.
  intros H.
  assert (Hs : MatcherScan (matchCommand sample_list_cmd listPat) =
               (true, snd (MatcherScan (matchCommand sample_list_cmd listPat))))
    by (vm_compute; reflexivity).
  specialize (H _ _ Hs). vm_compute in H. discriminate H.
Qed.

(* ------------------------------------------------------------------ *)
(** ** Conflict Finder                                                   *)
(* ------------------------------------------------------------------ *)

Import Hook.

Lemma mutuals_loop_excludes (w : World) (vmid : string) (res : gset string) :
  forall rows acc, Forall (fun r => id r <> vmid) acc ->
  Forall (fun r => id r <> vmid) (fst (mutuals_loop w vmid res rows acc)).
Proof.
  induction rows as [|r rows IH]; intros acc Hacc; simpl; [exact Hacc|].
  destruct (String.eqb_spec (id r) vmid) as [_|Hne]; [apply IH; exact Hacc|].
  destruct (sharesHostResources w (id r) res) as [shares [e|]]; [constructor|].
  apply IH. destruct shares; [|exact Hacc].
  apply Forall_app. split; [exact Hacc|]. constructor; [exact Hne|constructor].
Qed.

(** C3: [mutuals vmid] never lists [vmid] itself, whatever the listing and
    the configurations. *)
Theorem mutuals_irreflexive :
  forall (w : World) (vmid : string), ~ In vmid (map id (fst (mutuals w vmid))).
Proof.
  intros w vmid Hin. unfold mutuals in Hin.
  destruct (hostResources w vmid) as [res [e|]]; [contradiction|].
  pose proof (mutuals_loop_excludes w vmid res (list_rows (qm_list w)) [] ltac:(constructor)) as Hf.
  destruct (mutuals_loop w vmid res _ []) as [acc [e|]]; [contradiction|].
  destruct (qm_list_err w) as [e|]; [contradiction|]. simpl in Hf, Hin.
  apply in_map_iff in Hin as (r & Hr & Hin). rewrite Forall_forall in Hf.
  exact (Hf r (proj2 (list_elem_of_In acc r) Hin) Hr).
Qed.

Lemma mutuals_loop_ok (w : World) (vmid : string) (res : gset string) :
  (forall i, cfg_err_full (qm_config w i) = None /\ cfg_err_early (qm_config w i) = None) ->
  forall rows acc,
  mutuals_loop w vmid res rows acc =
  (acc ++ List.filter (fun r => negb (String.eqb (id r) vmid) &&
                                fst (sharesHostResources w (id r) res)) rows, None).
Proof.
  intros Hok. induction rows as [|r rows IH]; intros acc; simpl; [rewrite app_nil_r; reflexivity|].
  destruct (String.eqb (id r) vmid) eqn:Heq; simpl; [apply IH|].
  unfold sharesHostResources. destruct (Hok (id r)) as [Hfull Hearly].
  destruct (existsb _ _); simpl; rewrite ?Hfull, ?Hearly, IH; [|reflexivity].
  rewrite <- app_assoc. reflexivity.
Qed.

Lemma shares_common_label (w : World) (a b : string) (l : string) :
  In l (recognized (cfg_lines (qm_config w a))) ->
  In l (recognized (cfg_lines (qm_config w b))) ->
  fst (sharesHostResources w b (fst (hostResources w a))) = true.
Proof.
  intros Ha Hb. unfold sharesHostResources, hostResources. simpl.
  replace (existsb _ _) with true; [reflexivity|]. symmetry.
  apply existsb_exists. exists l. split; [exact Hb|].
  apply bool_decide_eq_true. apply elem_of_list_to_set. apply list_elem_of_In. exact Ha.
Qed.

Lemma mutual_member (w : World) (a b : string) :
  a <> b -> qm_list_err w = None ->
  (forall i, cfg_err_full (qm_config w i) = None /\ cfg_err_early (qm_config w i) = None) ->
  In b (map id (list_rows (qm_list w))) ->
  (exists l, In l (recognized (cfg_lines (qm_config w a))) /\
             In l (recognized (cfg_lines (qm_config w b)))) ->
  In b (map id (fst (mutuals w a))) /\ snd (mutuals w a) = None.
Proof.
  intros Hne Hlist Hok Hin (l & Hla & Hlb).
  pose proof (shares_common_label w a b l Hla Hlb) as Hsh.
  unfold mutuals. destruct (hostResources w a) as [res err] eqn:Hres.
  replace err with (None : option error)
    by (unfold hostResources in Hres; injection Hres as _ <-; symmetry; apply Hok).
  rewrite (mutuals_loop_ok w a res Hok). rewrite Hlist. simpl. split; [|reflexivity].
  apply in_map_iff in Hin as (r & Hr & Hin). apply in_map_iff. exists r. split; [exact Hr|].
  apply filter_In. split; [exact Hin|]. subst b. simpl in Hsh.
  rewrite Hsh. destruct (String.eqb_spec (id r) a) as [Heq|]; [congruence|reflexivity].
Qed.

(** C2: mutuality is symmetric.  For two different guests that both appear
    as rows of the listing and whose configurations yield a common label,
    each is in the other's [mutuals], when no command fails. *)
Theorem mutuals_symmetric :
  forall (w : World) (a b : string),
  a <> b -> qm_list_err w = None ->
  (forall i, cfg_err_full (qm_config w i) = None /\ cfg_err_early (qm_config w i) = None) ->
  In a (map id (list_rows (qm_list w))) -> In b (map id (list_rows (qm_list w))) ->
  (exists l, In l (recognized (cfg_lines (qm_config w a))) /\
             In l (recognized (cfg_lines (qm_config w b)))) ->
  In b (map id (fst (mutuals w a))) /\ In a (map id (fst (mutuals w b))).
Proof.
  intros w a b Hne Hlist Hok Ha Hb (l & Hla & Hlb). split.
  - apply (mutual_member w a b Hne Hlist Hok Hb). exists l. split; assumption.
  - apply (mutual_member w b a (not_eq_sym Hne) Hlist Hok Ha). exists l. split; assumption.
Qed.

(* ------------------------------------------------------------------ *)
(** ** Shutdown Orchestrator                                             *)
(* ------------------------------------------------------------------ *)

Lemma first_error_snoc (l : list (option error)) (x : option error) :
  first_error (l ++ [x]) = match first_error l with Some e => Some e | None => x end.
Proof. induction l as [|[e|] l IH]; simpl; [destruct x; reflexivity|reflexivity|exact IH]. Qed.

Lemma first_error_nones {A} (l : list A) : first_error (map (fun _ => None) l) = None.
Proof. induction l; simpl; auto. Qed.

Lemma running_ids_app (l1 l2 : list listRec) :
  running_ids (l1 ++ l2) = running_ids l1 ++ running_ids l2.
Proof. unfold running_ids. rewrite List.filter_app, map_app. reflexivity. Qed.

Lemma unknown_recs_app (l1 l2 : list listRec) :
  unknown_recs (l1 ++ l2) = unknown_recs l1 ++ unknown_recs l2.
Proof. unfold unknown_recs. rewrite List.filter_app, map_app. reflexivity. Qed.

Lemma runs_app (t1 t2 : list event) : runs (t1 ++ t2) = runs t1 ++ runs t2.
Proof. unfold runs. apply omap_app. Qed.

Lemma not_stopping_logs_app (t1 t2 : list event) :
  not_stopping_logs (t1 ++ t2) = not_stopping_logs t1 ++ not_stopping_logs t2.
Proof. unfold not_stopping_logs. apply omap_app. Qed.

Lemma group_inv_init dryRun exec_result recs :
  group_inv dryRun exec_result recs (group_init recs).
Proof.
  exists []. simpl. split; [reflexivity|]. split; [constructor|].
  split; [destruct dryRun; reflexivity|]. split; reflexivity.
Qed.

Lemma group_inv_step dryRun exec_result recs g g' :
  group_inv dryRun exec_result recs g -> group_step dryRun exec_result g g' ->
  group_inv dryRun exec_result recs g'.
Proof.
  intros (visited & Hrecs & Hperm & Hruns & Hlogs & Herr) Hstep.
  destruct Hstep as [g r rest Hv Hst|g r rest Hv Hst|g r rest Hv Hrun Hstop|g l1 v l2 Hp];
    simpl.
  - exists (visited ++ [r]). cbn [to_visit pending finished first_err trace]. rewrite Hv in Hrecs. split; [rewrite Hrecs, <- app_assoc; reflexivity|].
    split; [|split; [exact Hruns|split; [|exact Herr]]].
    + rewrite running_ids_app, app_assoc. simpl. unfold running_ids at 2. simpl.
      rewrite Hst. simpl. apply Permutation_app_tail. exact Hperm.
    + rewrite unknown_recs_app, Hlogs. unfold unknown_recs at 3. simpl. rewrite Hst. simpl.
      rewrite app_nil_r. reflexivity.
  - exists (visited ++ [r]). cbn [to_visit pending finished first_err trace]. rewrite Hv in Hrecs. split; [rewrite Hrecs, <- app_assoc; reflexivity|].
    split; [|split; [exact Hruns|split; [|exact Herr]]].
    + rewrite running_ids_app. unfold running_ids at 2. simpl. rewrite Hst. simpl.
      rewrite app_nil_r. exact Hperm.
    + rewrite unknown_recs_app, Hlogs. unfold unknown_recs at 3. simpl. rewrite Hst. simpl.
      rewrite app_nil_r. reflexivity.
  - exists (visited ++ [r]). cbn [to_visit pending finished first_err trace]. rewrite Hv in Hrecs. split; [rewrite Hrecs, <- app_assoc; reflexivity|].
    apply String.eqb_neq in Hrun, Hstop.
    split; [|split; [|split; [|exact Herr]]].
    + rewrite running_ids_app. unfold running_ids at 2. simpl. rewrite Hrun. simpl.
      rewrite app_nil_r. exact Hperm.
    + rewrite runs_app, Hruns. simpl. rewrite app_nil_r. reflexivity.
    + rewrite not_stopping_logs_app, unknown_recs_app, Hlogs. unfold unknown_recs at 3.
      simpl. rewrite Hrun, Hstop. reflexivity.
  - exists visited. cbn [to_visit pending finished first_err trace]. split; [exact Hrecs|]. split; [|split; [|split]].
    + rewrite Hp in Hperm. rewrite <- Hperm, <- app_assoc. simpl.
      apply Permutation_app_head. apply Permutation_middle.
    + rewrite runs_app, Hruns, map_app. unfold maybeRun. destruct dryRun; reflexivity.
    + rewrite not_stopping_logs_app, Hlogs. unfold maybeRun.
      destruct dryRun; simpl; rewrite app_nil_r; reflexivity.
    + rewrite map_app; cbn [map]; rewrite first_error_snoc, <- Herr. reflexivity.
Qed.

Lemma group_inv_run dryRun exec_result recs g :
  rtc (group_step dryRun exec_result) (group_init recs) g ->
  group_inv dryRun exec_result recs g.
Proof.
  intros Hrtc. pose proof (group_inv_init dryRun exec_result recs) as Hinit.
  revert Hinit. induction Hrtc as [x|x y z Hxy Hyz IH]; intros Hx; [exact Hx|].
  apply IH. eapply group_inv_step; eassumption.
Qed.

(** A finished run of the errgroup: every launched task finished, in some
    order, and the error kept is the first one in that order. *)
Lemma group_result dryRun exec_result recs g :
  rtc (group_step dryRun exec_result) (group_init recs) g -> group_done g ->
  Permutation (finished g) (running_ids recs) /\
  runs (trace g) = (if dryRun then [] else map shutdown_args (finished g)) /\
  not_stopping_logs (trace g) = unknown_recs recs /\
  first_err g = first_error (map (fun v => snd (maybeRun dryRun exec_result (shutdown_args v)))
                                 (finished g)).
Proof.
  intros Hrtc [Hv Hp].
  destruct (group_inv_run dryRun exec_result recs g Hrtc)
    as (visited & Hrecs & Hperm & Hruns & Hlogs & Herr).
  rewrite Hv, app_nil_r in Hrecs. subst visited. rewrite Hp, app_nil_r in Hperm.
  split; [exact Hperm|]. split; [exact Hruns|]. split; [exact Hlogs|exact Herr].
Qed.

(** C4: over any interleaving of the launch loop with the tasks, a complete
    run of [stopMutuals] on a list of mutual records issues one
    [qm shutdown <id>] per record whose status is "running" and no other
    command, logs one diagnostic per record whose status is neither
    "running" nor "stopped" (in the order of the records) and nothing for
    "stopped" ones; under dry-run it issues no command and returns no
    error. *)
Theorem stopMutuals_actions :
  forall dryRun exec_result recs g,
  rtc (group_step dryRun exec_result) (group_init recs) g -> group_done g ->
  Permutation (runs (trace g))
              (if dryRun then [] else map shutdown_args (running_ids recs)) /\
  not_stopping_logs (trace g) = unknown_recs recs /\
  (dryRun = true -> runs (trace g) = [] /\ first_err g = None).
Proof.
  intros dryRun exec_result recs g Hrtc Hdone.
  destruct (group_result dryRun exec_result recs g Hrtc Hdone) as (Hperm & Hruns & Hlogs & Herr).
  split; [|split; [exact Hlogs|]].
  - rewrite Hruns. destruct dryRun; [reflexivity|]. apply Permutation_map. exact Hperm.
  - intros ->. split; [exact Hruns|]. rewrite Herr. unfold maybeRun. simpl.
    apply first_error_nones.
Qed.

(** C5: whatever order the concurrent tasks finish in and whichever of them
    fail, [g.Wait()] returns only once every task launched for a running
    mutual has finished, each having issued its shutdown request, and it
    returns the error of the first failing task in completion order (none
    if no task failed); the other errors are dropped. *)
Theorem stopMutuals_first_error :
  forall dryRun exec_result recs g,
  rtc (group_step dryRun exec_result) (group_init recs) g -> group_done g ->
  Permutation (finished g) (running_ids recs) /\
  pending g = [] /\
  runs (trace g) = (if dryRun then [] else map shutdown_args (finished g)) /\
  first_err g = first_error (map (fun v => snd (maybeRun dryRun exec_result (shutdown_args v)))
                                 (finished g)).
Proof.
  intros dryRun exec_result recs g Hrtc Hdone.
  destruct (group_result dryRun exec_result recs g Hrtc Hdone) as (Hperm & Hruns & _ & Herr).
  split; [exact Hperm|]. split; [exact (proj2 Hdone)|]. split; [exact Hruns|exact Herr].
Qed.

(** With no label to share, the listing loop keeps no guest. *)
Lemma mutuals_loop_empty (w : World) (vmid : string) :
  forall rows, fst (mutuals_loop w vmid ∅ rows []) = [].
Proof.
  induction rows as [|r rows IH]; simpl; [reflexivity|].
  destruct (String.eqb (id r) vmid); [exact IH|].
  unfold sharesHostResources.
  replace (existsb _ _) with false.
  - destruct (cfg_err_full (qm_config w (id r))); [reflexivity|exact IH].
  - symmetry. induction (recognized _) as [|l ls IHl]; simpl; [reflexivity|].
    rewrite IHl, orb_false_r. apply bool_decide_eq_false. set_solver.
Qed.

(** C10: a guest whose configuration yields no label has no mutuals,
    whatever the listing and the other guests' configurations, and every
    run of [stopMutuals] for it issues no shutdown request. *)
Theorem no_labels_no_mutuals :
  forall (w : World) (vmid : string),
  fst (hostResources w vmid) = ∅ ->
  fst (mutuals w vmid) = [] /\
  (forall dryRun exec_result tr r,
     stopMutuals w dryRun exec_result vmid tr r -> runs tr = []).
Proof.
  intros w vmid Hres.
  assert (Hm : fst (mutuals w vmid) = []).
  { unfold mutuals. destruct (hostResources w vmid) as [res [e|]]; [reflexivity|].
    simpl in Hres. subst res. pose proof (mutuals_loop_empty w vmid (list_rows (qm_list w))) as H.
    destruct (mutuals_loop w vmid ∅ _ []) as [acc [e|]]; [reflexivity|].
    destruct (qm_list_err w); [reflexivity|exact H]. }
  split; [exact Hm|].
  intros dryRun exec_result tr r Hstop. destruct Hstop as [recs e Hmu|recs g Hmu Hrtc Hdone].
  - reflexivity.
  - rewrite Hmu in Hm. simpl in Hm. subst recs.
    destruct (group_result dryRun exec_result [] g Hrtc Hdone) as (Hperm & Hruns & _).
    simpl in Hperm. apply Permutation_nil_r in Hperm. rewrite Hruns, Hperm. destruct dryRun; reflexivity.
Qed.

(** ** The hook entry point *)

(** C8 (amended): [runHook] with fewer than two arguments returns the usage
    error and calls nothing; with at least two it reads the guest id and the
    phase from the first two and ignores the rest: "pre-start" runs
    [stopMutuals] for the guest and returns its result, "post-start",
    "pre-stop" and "post-stop" return no error and call nothing, and any
    other phase returns the unknown-phase error naming it and calls
    nothing. *)
Theorem runHook_spec :
  forall (stop : string -> option error) (prog : string) (args : list string),
  (length args < 2 -> runHook stop prog args = ([], Some (ErrUsage prog))) /\
  (forall vmid phase rest, args = vmid :: phase :: rest ->
     runHook stop prog args = runHook stop prog [vmid; phase] /\
     (phase = "pre-start"%string -> runHook stop prog args = ([vmid], stop vmid)) /\
     (In phase ["post-start"; "pre-stop"; "post-stop"]%string ->
        runHook stop prog args = ([], None)) /\
     (~ In phase ["pre-start"; "post-start"; "pre-stop"; "post-stop"]%string ->
        runHook stop prog args = ([], Some (ErrUnknownPhase phase)))).
Proof.
  intros stop prog args. split.
  - intros Hlen. destruct args as [|a [|b rest]]; [reflexivity|reflexivity|].
    simpl in Hlen. lia.
  - intros vmid phase rest ->. split; [reflexivity|]. split; [|split].
    + intros ->. reflexivity.
    + intros [<-|[<-|[<-|[]]]]; reflexivity.
    + intros Hnot. simpl.
      destruct (String.eqb_spec phase "pre-start"); [subst; simpl in Hnot; tauto|].
      destruct (String.eqb_spec phase "post-start"); [subst; simpl in Hnot; tauto|].
      destruct (String.eqb_spec phase "pre-stop"); [subst; simpl in Hnot; tauto|].
      destruct (String.eqb_spec phase "post-stop"); [subst; simpl in Hnot; tauto|].
      reflexivity.
Qed.

(** C8: invocation does not require exactly two arguments: a third one is
    ignored, so [101 post-stop extra] is not a usage error. *)
Lemma runHook_extra_args_accepted :
  ~ (forall (stop : string -> option error) (prog : string) (args : list string),
       length args <> 2 -> snd (runHook stop prog args) = Some (ErrUsage prog)).
Proof.
  intros H.
  specialize (H (fun _ => None) "qmexmut"%string ["101"; "post-stop"; "extra"]%string).
  discriminate (H ltac:(simpl; lia)).
Qed.

(** ** Witnesses: the theorems applied to concrete inputs *)

Lemma classify_spec_witness :
  classify "usb0" "spice" = ""%string /\ classify "hostpci0" "0000:01:00.0,pcie=1" = "hostpci:0000:01:00.0"%string.
Proof.
  destruct classify_spec as [_ (H1 & _ & H3 & _)]. split; [exact H3|exact H1].
Defined.

Lemma scanner_error_sticky_witness :
  Err (set_err sample_drained_scanner (Some (ErrText "read: broken pipe"%string))) = (Some (ErrText "read: broken pipe"%string), set_err sample_drained_scanner (Some (ErrText "read: broken pipe"%string))).
Proof.
  exact (proj1 (proj2 scanner_error_sticky) (set_err sample_drained_scanner (Some (ErrText "read: broken pipe"%string))) _ eq_refl).
Defined.

Lemma cleanup_reports_witness :
  started sample_drained_scanner = true /\ waited sample_drained_scanner = false /\
  (Cleanup sample_drained_scanner (Some None) Running).2 = [EKill; EWait].
Proof.
  split; [reflexivity|]. split; [reflexivity|].
  exact (proj1 (cleanup_reports sample_drained_scanner (Some None) Running eq_refl eq_refl)).
Defined.

Lemma matcher_scan_spec_witness :
  MatcherScan (matchCommand sample_list_cmd listPat) =
    (true, snd (MatcherScan (matchCommand sample_list_cmd listPat))) /\
  listPat (Bytes (msc (snd (MatcherScan (matchCommand sample_list_cmd listPat))))) =
    Some (mmatch (snd (MatcherScan (matchCommand sample_list_cmd listPat)))).
Proof.
  assert (Hs : MatcherScan (matchCommand sample_list_cmd listPat) =
               (true, snd (MatcherScan (matchCommand sample_list_cmd listPat))))
    by (vm_compute; reflexivity).
  split; [exact Hs|].
  exact (proj1 (proj2 (matcher_scan_spec _ _ _ Hs)) eq_refl).
Defined.

Lemma mutuals_irreflexive_witness :
  ~ In "101"%string (map id (fst (mutuals sample_world "101"))).
Proof. exact (mutuals_irreflexive sample_world "101"). Defined.

Lemma mutuals_symmetric_witness :
  In "102"%string (map id (fst (mutuals sample_world "101"))) /\
  In "101"%string (map id (fst (mutuals sample_world "102"))).
Proof.
  apply (mutuals_symmetric sample_world "101" "102").
  - discriminate.
  - reflexivity.
  - intros i. split; reflexivity.
  - vm_compute. left. reflexivity.
  - vm_compute. right. left. reflexivity.
  - exists "hostpci:0000:01:00.0"%string. split; vm_compute; left; reflexivity.
Defined.


Lemma stopMutuals_actions_witness :
  exists g, rtc (group_step false sample_exec) (group_init sample_recs) g /\ group_done g /\
  (Permutation (runs (trace g)) (map shutdown_args (running_ids sample_recs)) /\
   not_stopping_logs (trace g) = unknown_recs sample_recs /\
   (false = true -> runs (trace g) = [] /\ first_err g = None)).
Proof.
  evar (g : Group).
  assert (Hr : rtc (group_step false sample_exec) (group_init sample_recs) g).
  { subst g.
    eapply rtc_l; [eapply step_running; reflexivity|].
    eapply rtc_l; [eapply step_stopped; reflexivity|].
    eapply rtc_l; [eapply step_unknown; [reflexivity|discriminate|discriminate]|].
    eapply rtc_l; [eapply step_running; reflexivity|].
    eapply rtc_l; [eapply (step_task _ _ _ ["101"]%string "103"%string []); reflexivity|].
    eapply rtc_l; [eapply (step_task _ _ _ [] "101"%string []); reflexivity|].
    apply rtc_refl. }
  assert (Hd : group_done g) by (subst g; split; reflexivity).
  exists g. split; [exact Hr|]. split; [exact Hd|].
  exact (stopMutuals_actions false sample_exec sample_recs g Hr Hd).
Defined.

Lemma stopMutuals_first_error_witness :
  exists g, rtc (group_step false sample_exec) (group_init sample_recs) g /\ group_done g /\
  finished g = ["103"; "101"]%string /\
  first_err g = Some (ErrText "shutdown 103 timed out"%string) /\
  (Permutation (finished g) (running_ids sample_recs) /\
   pending g = [] /\
   runs (trace g) = map shutdown_args (finished g) /\
   first_err g = first_error (map (fun v => snd (maybeRun false sample_exec (shutdown_args v)))
                                  (finished g))).
Proof.
  evar (g : Group).
  assert (Hr : rtc (group_step false sample_exec) (group_init sample_recs) g).
  { subst g.
    eapply rtc_l; [eapply step_running; reflexivity|].
    eapply rtc_l; [eapply step_stopped; reflexivity|].
    eapply rtc_l; [eapply step_unknown; [reflexivity|discriminate|discriminate]|].
    eapply rtc_l; [eapply step_running; reflexivity|].
    eapply rtc_l; [eapply (step_task _ _ _ ["101"]%string "103"%string []); reflexivity|].
    eapply rtc_l; [eapply (step_task _ _ _ [] "101"%string []); reflexivity|].
    apply rtc_refl. }
  assert (Hd : group_done g) by (subst g; split; reflexivity).
  exists g. split; [exact Hr|]. split; [exact Hd|].
  split; [subst g; reflexivity|]. split; [subst g; reflexivity|].
  exact (stopMutuals_first_error false sample_exec sample_recs g Hr Hd).
Defined.

Lemma no_labels_no_mutuals_witness :
  fst (hostResources sample_world "103") = ∅ /\ fst (mutuals sample_world "103") = [].
Proof.
  assert (H : fst (hostResources sample_world "103") = ∅) by reflexivity.
  split; [exact H|]. exact (proj1 (no_labels_no_mutuals sample_world "103" H)).
Defined.

Lemma runHook_spec_witness :
  runHook (fun _ => None) "qmexmut" ["101"; "post-stop"; "extra"] = ([], None) /\
  runHook (fun _ => None) "qmexmut" ["101"] = ([], Some (ErrUsage "qmexmut")).
Proof.
  split.
  - refine (proj1 (proj2 (proj2 (proj2 (runHook_spec (fun _ => None) "qmexmut"
                     ["101"; "post-stop"; "extra"]) "101" "post-stop" ["extra"] eq_refl))) _).
    right. right. left. reflexivity.
  - exact (proj1 (runHook_spec (fun _ => None) "qmexmut" ["101"]) ltac:(simpl; lia)).
Defined.

(* ------------------------------------------------------------------ *)
(** ** The command-backed layers                                         *)
(* ------------------------------------------------------------------ *)

Import Cmds.

Section CmdStates.

Variable c : Cmd.

Lemma Scan_fresh :
  pipe_err c = None -> start_err c = None ->
  Scan (newCmdScanner c) = Scan (streaming c (output c) "").
Proof. intros Hp Hs. unfold Scan. simpl. rewrite Hp. simpl. rewrite Hs. reflexivity. Qed.

Lemma Scan_streaming_cons l rest tok :
  Scan (streaming c (l :: rest) tok) = (true, streaming c rest l).
Proof. reflexivity. Qed.

Lemma Scan_streaming_nil tok : Scan (streaming c [] tok) = (false, drained c).
Proof. reflexivity. Qed.

Lemma Scan_drained : Scan (drained c) = (false, drained c).
Proof. reflexivity. Qed.

Lemma Err_drained : Err (drained c) =
  match read_err c with
  | Some e => (Some (ErrIO e), set_err (drained c) (Some (ErrIO e)))
  | None => (None, drained c)
  end.
Proof. unfold Err, drained. simpl. destruct (read_err c); reflexivity. Qed.

Lemma Err_streaming rest tok : Err (streaming c rest tok) = (None, streaming c rest tok).
Proof. reflexivity. Qed.

End CmdStates.

Lemma matcher_loop_congr fuel p c1 c2 :
  Scan c1 = Scan c2 -> matcher_loop (S fuel) p c1 = matcher_loop (S fuel) p c2.
Proof. intros H. simpl. rewrite H. reflexivity. Qed.

Lemma first_match_length p lines l m rest :
  first_match p lines = Some (l, m, rest) -> length rest < length lines.
Proof.
  induction lines as [|l0 lines IH]; simpl; [discriminate|].
  destruct (p l0); [intros [= _ _ <-]; lia|]. intros H. specialize (IH H). lia.
Qed.

Lemma matcher_loop_streaming c p :
  forall rest fuel tok, length rest < fuel ->
  matcher_loop fuel p (streaming c rest tok) =
    match first_match p rest with
    | Some (l, m, r) => (true, streaming c r l, m)
    | None => (false, drained c, [])
    end.
Proof.
  induction rest as [|l rest IH]; intros [|fuel] tok Hf; simpl in Hf; try lia.
  - reflexivity.
  - cbn [matcher_loop]. rewrite Scan_streaming_cons. cbn [first_match].
    change (Bytes (streaming c rest l)) with l.
    destruct (p l) as [m|]; [reflexivity|]. apply IH. lia.
Qed.

Lemma MatcherScan_streaming c p rest tok mm :
  MatcherScan {| msc := streaming c rest tok; pat := p; mmatch := mm |} =
    match first_match p rest with
    | Some (l, m, r) => (true, {| msc := streaming c r l; pat := p; mmatch := m |})
    | None => (false, {| msc := drained c; pat := p; mmatch := [] |})
    end.
Proof.
  unfold MatcherScan. cbn [msc pat].
  rewrite (matcher_loop_streaming c p rest); [|unfold lines_left; simpl; lia].
  destruct (first_match p rest) as [[[l m] r]|]; reflexivity.
Qed.

Lemma MatcherScan_drained c p mm :
  MatcherScan {| msc := drained c; pat := p; mmatch := mm |} =
    (false, {| msc := drained c; pat := p; mmatch := [] |}).
Proof. reflexivity. Qed.

Lemma MatcherScan_fresh c p :
  pipe_err c = None -> start_err c = None ->
  MatcherScan (matchCommand c p) =
    MatcherScan {| msc := streaming c (output c) ""; pat := p; mmatch := [] |}.
Proof.
  intros Hp Hs. unfold MatcherScan. cbn [msc pat matchCommand].
  assert (Hl : lines_left (newCmdScanner c) = lines_left (streaming c (output c) "")) by reflexivity.
  rewrite Hl, (matcher_loop_congr _ p _ _ (Scan_fresh c Hp Hs)). reflexivity.
Qed.

(** A scanner holding an error: [cmdMatcher.Scan] is false and keeps it. *)
Lemma MatcherScan_failed c0 p mm e :
  err c0 = Some e ->
  MatcherScan {| msc := c0; pat := p; mmatch := mm |} =
    (false, {| msc := c0; pat := p; mmatch := [] |}).
Proof. intros H. unfold MatcherScan. simpl. rewrite (Scan_err c0 e H). reflexivity. Qed.

Lemma MatcherScan_launch_failed c p e :
  launch_err c = Some e ->
  exists c0, MatcherScan (matchCommand c p) = (false, {| msc := c0; pat := p; mmatch := [] |}) /\
    err c0 = Some e /\ started c0 = false /\ cmd c0 = c.
Proof.
  unfold launch_err, MatcherScan, matchCommand. cbn [msc pat].
  destruct (pipe_err c) as [e'|] eqn:Hp.
  - intros [= <-]. eexists. split; [simpl; unfold Scan; simpl; rewrite Hp; reflexivity|].
    repeat split.
  - intros Hs. eexists.
    split; [simpl; unfold Scan; simpl; rewrite Hp; simpl; rewrite Hs; reflexivity|].
    repeat split.
Qed.

Lemma Cleanup_streaming_report c rest tok p :
  result_err (Cleanup (streaming c rest tok) (Some None) p).1.2 = cleanup_report c None p.
Proof.
  unfold Cleanup, cleanup_report, cmd_wait, result_err. simpl.
  destruct p as [|[[|code]|sig]]; simpl; try reflexivity.
  destruct (Nat.eqb sig SIGKILL); reflexivity.
Qed.

Lemma Cleanup_drained_report c p :
  result_err (Cleanup (drained c) (Some None) p).1.2 = cleanup_report c (read_err c) p.
Proof.
  unfold Cleanup, cleanup_report, cmd_wait, result_err, drained. simpl.
  destruct (read_err c) as [e|]; [reflexivity|].
  destruct p as [|[[|code]|sig]]; simpl; try reflexivity.
  destruct (Nat.eqb sig SIGKILL); reflexivity.
Qed.

Lemma Cleanup_failed_report c0 e p :
  err c0 = Some e -> started c0 = false ->
  result_err (Cleanup c0 (Some None) p).1.2 = Some (ErrCommand (Args (cmd c0)) e).
Proof.
  destruct c0 as [cm st wt er sc]. simpl. intros -> ->. reflexivity.
Qed.

Lemma first_label_match p r lines :
  first_label p r lines =
    match first_match p lines with
    | None => None
    | Some (l, m, rest) => if String.eqb (r m) "" then first_label p r rest else Some (l, m, r m, rest)
    end.
Proof. induction lines as [|l lines IH]; simpl; [reflexivity|]. destruct (p l); [reflexivity|exact IH]. Qed.

Lemma first_label_length p r lines l m lab rest :
  first_label p r lines = Some (l, m, lab, rest) -> length rest < length lines.
Proof.
  induction lines as [|l0 lines IH]; simpl; [discriminate|].
  destruct (p l0); [destruct (String.eqb _ _); [|intros [= _ _ _ <-]; lia]|];
    intros H; specialize (IH H); lia.
Qed.

Lemma recognizer_loop_congr fuel r m1 m2 :
  MatcherScan m1 = MatcherScan m2 -> recognizer_loop (S fuel) r m1 = recognizer_loop (S fuel) r m2.
Proof. intros H. simpl. rewrite H. reflexivity. Qed.

Lemma recognizer_loop_streaming c p r :
  forall fuel rest tok mm, length rest < fuel ->
  recognizer_loop fuel r {| msc := streaming c rest tok; pat := p; mmatch := mm |} =
    match first_label p r rest with
    | Some (l, m, lab, rest') => (true, {| msc := streaming c rest' l; pat := p; mmatch := m |}, lab)
    | None => (false, {| msc := drained c; pat := p; mmatch := [] |}, "")
    end.
Proof.
  induction fuel as [|fuel IH]; intros rest tok mm Hf; [lia|].
  cbn [recognizer_loop]. rewrite MatcherScan_streaming, first_label_match.
  destruct (first_match p rest) as [[[l m] r0]|] eqn:E; [|reflexivity].
  cbn [mmatch]. destruct (String.eqb (r m) "") eqn:Eq; [|reflexivity].
  apply IH. apply first_match_length in E. lia.
Qed.

Lemma RecognizerScan_streaming c p r rest tok mm lab :
  RecognizerScan {| rmatcher := {| msc := streaming c rest tok; pat := p; mmatch := mm |};
                    rec := r; label := lab |} =
    match first_label p r rest with
    | Some (l, m, lab', rest') =>
      (true, {| rmatcher := {| msc := streaming c rest' l; pat := p; mmatch := m |};
                rec := r; label := lab' |})
    | None => (false, {| rmatcher := {| msc := drained c; pat := p; mmatch := [] |};
                         rec := r; label := "" |})
    end.
Proof.
  unfold RecognizerScan. cbn [rmatcher rec msc].
  rewrite (recognizer_loop_streaming c p r); [|unfold lines_left; simpl; lia].
  destruct (first_label p r rest) as [[[[l m] lab'] rest']|]; reflexivity.
Qed.

Lemma RecognizerScan_fresh c p r :
  launch_err c = None ->
  RecognizerScan (recognizeCommand c p r) =
    RecognizerScan {| rmatcher := {| msc := streaming c (output c) ""; pat := p; mmatch := [] |};
                      rec := r; label := "" |}.
Proof.
  unfold launch_err. destruct (pipe_err c) eqn:Hp; [discriminate|]. intros Hs.
  unfold RecognizerScan, recognizeCommand. cbn [rmatcher rec].
  assert (Hl : lines_left (msc (matchCommand c p)) = lines_left (streaming c (output c) ""))
    by reflexivity.
  rewrite Hl, (recognizer_loop_congr _ r _ _ (MatcherScan_fresh c p Hp Hs)). reflexivity.
Qed.

Lemma RecognizerScan_failed c0 p r mm lab e :
  err c0 = Some e ->
  RecognizerScan {| rmatcher := {| msc := c0; pat := p; mmatch := mm |}; rec := r; label := lab |} =
    (false, {| rmatcher := {| msc := c0; pat := p; mmatch := [] |}; rec := r; label := "" |}).
Proof.
  intros H. unfold RecognizerScan. cbn [rmatcher rec msc].
  simpl. rewrite (MatcherScan_failed c0 p mm e H). reflexivity.
Qed.

Lemma RecognizerScan_launch_failed c p r e :
  launch_err c = Some e ->
  exists c0, RecognizerScan (recognizeCommand c p r) =
    (false, {| rmatcher := {| msc := c0; pat := p; mmatch := [] |}; rec := r; label := "" |}) /\
    err c0 = Some e /\ started c0 = false /\ cmd c0 = c.
Proof.
  intros He. destruct (MatcherScan_launch_failed c p e He) as (c0 & Hm & H1 & H2 & H3).
  exists c0. split; [|split; [exact H1|split; [exact H2|exact H3]]].
  unfold RecognizerScan, recognizeCommand. cbn [rmatcher rec]. simpl. simpl in Hm.
  rewrite Hm. reflexivity.
Qed.

Lemma recognized_first_label lines :
  recognized lines =
    match first_label keyValPat labelHostResource lines with
    | None => []
    | Some (_, _, lab, rest) => lab :: recognized rest
    end.
Proof.
  induction lines as [|l lines IH]; simpl; [reflexivity|].
  destruct (keyValPat l); [|exact IH]. destruct (String.eqb _ _); [exact IH|reflexivity].
Qed.

Lemma hostResources_loop_streaming c :
  forall fuel rest tok mm lab reses, length rest < fuel ->
  hostResources_loop fuel
    {| rmatcher := {| msc := streaming c rest tok; pat := keyValPat; mmatch := mm |};
       rec := labelHostResource; label := lab |} reses =
    (list_to_set (recognized rest) ∪ reses,
     {| rmatcher := {| msc := drained c; pat := keyValPat; mmatch := [] |};
        rec := labelHostResource; label := "" |}).
Proof.
  induction fuel as [|fuel IH]; intros rest tok mm lab reses Hf; [lia|].
  cbn [hostResources_loop]. rewrite RecognizerScan_streaming, (recognized_first_label rest).
  destruct (first_label _ _ rest) as [[[[l m] lab'] rest']|] eqn:E.
  - rewrite IH; [|apply first_label_length in E; lia]. f_equal. simpl. unfold Label. simpl.
    set_solver.
  - f_equal. simpl. set_solver.
Qed.

Lemma hostResources_loop_failed c0 e :
  err c0 = Some e ->
  forall fuel mm lab reses, 
  hostResources_loop (S fuel)
    {| rmatcher := {| msc := c0; pat := keyValPat; mmatch := mm |};
       rec := labelHostResource; label := lab |} reses =
    (reses, {| rmatcher := {| msc := c0; pat := keyValPat; mmatch := [] |};
               rec := labelHostResource; label := "" |}).
Proof. intros H fuel mm lab reses. cbn [hostResources_loop]. rewrite (RecognizerScan_failed c0 _ _ mm lab e H). reflexivity. Qed.

Lemma hostResources_loop_congr fuel r1 r2 reses :
  RecognizerScan r1 = RecognizerScan r2 ->
  hostResources_loop (S fuel) r1 reses = hostResources_loop (S fuel) r2 reses.
Proof. intros H. simpl. rewrite H. reflexivity. Qed.

Lemma shares_loop_congr fuel r1 r2 reses :
  RecognizerScan r1 = RecognizerScan r2 ->
  shares_loop (S fuel) r1 reses = shares_loop (S fuel) r2 reses.
Proof. intros H. simpl. rewrite H. reflexivity. Qed.

Lemma shares_loop_streaming c reses :
  forall fuel rest tok mm lab, length rest < fuel ->
  let r := shares_loop fuel
    {| rmatcher := {| msc := streaming c rest tok; pat := keyValPat; mmatch := mm |};
       rec := labelHostResource; label := lab |} reses in
  fst r = existsb (fun l => bool_decide (l ∈ reses)) (recognized rest) /\
  (fst r = true -> exists rest' tok', msc (rmatcher (snd r)) = streaming c rest' tok') /\
  (fst r = false -> msc (rmatcher (snd r)) = drained c).
Proof.
  induction fuel as [|fuel IH]; intros rest tok mm lab Hf; [lia|].
  cbn [shares_loop]. rewrite RecognizerScan_streaming, (recognized_first_label rest).
  destruct (first_label _ _ rest) as [[[[l m] lab'] rest']|] eqn:E.
  - unfold Label. cbn [label]. simpl existsb.
    destruct (bool_decide (lab' ∈ reses)) eqn:Eb.
    + simpl. split; [reflexivity|]. split; [|discriminate]. intros _. eexists _, _. reflexivity.
    + simpl. apply IH. apply first_label_length in E. lia.
  - simpl. split; [reflexivity|]. split; [discriminate|reflexivity].
Qed.

Lemma all_matches_first p lines :
  all_matches p lines =
    match first_match p lines with
    | Some (_, m, rest) => m :: all_matches p rest
    | None => []
    end.
Proof. induction lines as [|l lines IH]; simpl; [reflexivity|]. destruct (p l); [reflexivity|exact IH]. Qed.

Lemma list_matches_all lines : list_matches lines = all_matches listPat lines.
Proof. induction lines as [|l lines IH]; simpl; [reflexivity|]. destruct (listPat l); rewrite IH; reflexivity. Qed.

Lemma matcher_rows_streaming c p :
  forall fuel rest tok mm, length rest < fuel ->
  matcher_rows fuel {| msc := streaming c rest tok; pat := p; mmatch := mm |} =
    (all_matches p rest, {| msc := drained c; pat := p; mmatch := [] |}).
Proof.
  induction fuel as [|fuel IH]; intros rest tok mm Hf; [lia|].
  cbn [matcher_rows]. rewrite MatcherScan_streaming, (all_matches_first p rest).
  destruct (first_match p rest) as [[[l m] r]|] eqn:E; [|reflexivity].
  rewrite IH; [reflexivity|]. apply first_match_length in E. lia.
Qed.

(** [hostResources] over a [qm config] command.  When the pipe and the
    start succeed, the set it returns is the set of labels recognized in
    the command's output, and [rerr] is the pending read error (as an io
    error) if there is one, else the exit status of the process, except a
    normal exit or a death by SIGKILL, wrapped with the command's
    arguments.  When the pipe or the start fails, the set is empty and
    [rerr] is that error wrapped with the arguments. *)
Theorem hostResources_reads_labels :
  forall (config : string -> Cmd) (id : string) (p : proc_state),
  (launch_err (config id) = None ->
     hostResources config id p =
       (list_to_set (recognized (output (config id))),
        cleanup_report (config id) (read_err (config id)) p)) /\
  (forall e, launch_err (config id) = Some e ->
     hostResources config id p = (∅, Some (ErrCommand (Args (config id)) e))).
Proof.
  intros config id p. split.
  - intros Hl. unfold hostResources. cbn [rmatcher recognizeCommand msc matchCommand].
    rewrite (hostResources_loop_congr _ _ _ _ (RecognizerScan_fresh _ _ _ Hl)).
    rewrite hostResources_loop_streaming; [|unfold lines_left, newCmdScanner; simpl; lia]. cbn [rmatcher msc].
    pose proof (Cleanup_drained_report (config id) p) as Hc.
    destruct (Cleanup (drained (config id)) (Some None) p) as [[c' errp] effs].
    simpl in Hc. rewrite <- Hc. f_equal. set_solver.
  - intros e He.
    destruct (RecognizerScan_launch_failed _ keyValPat labelHostResource e He) as (c0 & Hr & H1 & H2 & H3).
    unfold hostResources. cbn [hostResources_loop]. rewrite Hr. cbn [rmatcher msc].
    pose proof (Cleanup_failed_report c0 e p H1 H2) as Hc. rewrite H3 in Hc.
    destruct (Cleanup c0 (Some None) p) as [[c' errp] effs]. simpl in Hc. rewrite <- Hc.
    reflexivity.
Qed.

(** [sharesHostResources] over a [qm config] command.  When the pipe and
    the start succeed, it answers whether some label recognized in the
    output is in [reses].  When it finds one it stops reading, so a read
    error further on is never reported and the kill of a still running
    process is silent: [rerr] is only the process's abnormal exit status.
    When it finds none it has read everything and [rerr] is as for
    [hostResources].  When the pipe or the start fails it answers false with
    that error wrapped with the arguments. *)
Theorem sharesHostResources_reads_labels :
  forall (config : string -> Cmd) (id : string) (reses : gset string) (p : proc_state),
  (launch_err (config id) = None ->
     fst (sharesHostResources config id reses p) =
       existsb (fun l => bool_decide (l ∈ reses)) (recognized (output (config id))) /\
     (fst (sharesHostResources config id reses p) = true ->
        snd (sharesHostResources config id reses p) = cleanup_report (config id) None p) /\
     (fst (sharesHostResources config id reses p) = false ->
        snd (sharesHostResources config id reses p) =
          cleanup_report (config id) (read_err (config id)) p)) /\
  (forall e, launch_err (config id) = Some e ->
     sharesHostResources config id reses p = (false, Some (ErrCommand (Args (config id)) e))).
Proof.
  intros config id reses p. split.
  - intros Hl. unfold sharesHostResources. cbn [rmatcher recognizeCommand msc matchCommand].
    rewrite (shares_loop_congr _ _ _ _ (RecognizerScan_fresh _ _ _ Hl)).
    pose proof (shares_loop_streaming (config id) reses (S (length (output (config id))))
                  (output (config id)) "" [] "" ltac:(lia)) as (Hf & Ht & Hfl).
    cbn zeta in Hf, Ht, Hfl.
    assert (Hll : lines_left (newCmdScanner (config id)) = length (output (config id))) by reflexivity.
    rewrite Hll.
    destruct (shares_loop _ _ reses) as [has cmr'] eqn:Es. cbn [fst snd] in *.
    destruct (Cleanup (msc (rmatcher cmr')) (Some None) p) as [[c' errp] effs] eqn:Ec.
    cbn [fst snd]. split; [exact Hf|]. split.
    + intros ->. destruct (Ht eq_refl) as (rest' & tok' & Hm). rewrite Hm in Ec.
      pose proof (Cleanup_streaming_report (config id) rest' tok' p) as Hc.
      rewrite Ec in Hc. exact Hc.
    + intros ->. rewrite (Hfl eq_refl) in Ec.
      pose proof (Cleanup_drained_report (config id) p) as Hc.
      rewrite Ec in Hc. exact Hc.
  - intros e He.
    destruct (RecognizerScan_launch_failed _ keyValPat labelHostResource e He) as (c0 & Hr & H1 & H2 & H3).
    unfold sharesHostResources. cbn [shares_loop]. rewrite Hr. cbn [rmatcher msc].
    pose proof (Cleanup_failed_report c0 e p H1 H2) as Hc. rewrite H3 in Hc.
    destruct (Cleanup c0 (Some None) p) as [[c' errp] effs]. simpl in Hc. rewrite <- Hc.
    reflexivity.
Qed.

(** What [shouldHook] returns, by the output of [qm config <id>]. *)
Lemma shouldHook_spec :
  forall (config : string -> Cmd) (id : string),
  (launch_err (config id) = None ->
     shouldHook config id =
       match recognized (output (config id)) with
       | [] => (false, option_map ErrIO (read_err (config id)))
       | _ :: _ => (true, None)
       end) /\
  (forall e, launch_err (config id) = Some e -> shouldHook config id = (false, Some e)).
Proof.
  intros config id. split.
  - intros Hl. unfold shouldHook. rewrite (RecognizerScan_fresh _ _ _ Hl).
    rewrite RecognizerScan_streaming, (recognized_first_label (output (config id))).
    destruct (first_label _ _ _) as [[[[l m] lab] rest]|]; [reflexivity|].
    unfold RecognizerErr. cbn [rmatcher msc]. rewrite Err_drained.
    destruct (read_err (config id)); reflexivity.
  - intros e He.
    destruct (RecognizerScan_launch_failed _ keyValPat labelHostResource e He) as (c0 & Hr & H1 & _).
    unfold shouldHook. rewrite Hr. unfold RecognizerErr. cbn [rmatcher msc].
    rewrite (Err_err c0 e H1). reflexivity.
Qed.

(** [shouldHook] reads [qm config <id>] only up to the first line that gets
    a label and never waits for the process.  When the pipe and the start
    succeed, it returns true and no error if some line of the output gets a
    label (whatever happens after it), and otherwise false with the read
    error, as an io error, if reading ended on one; the exit status of the
    command is never looked at.  When the pipe or the start fails, it
    returns false and that error, not wrapped. *)
Theorem shouldHook_first_label :
  forall (config : string -> Cmd) (id : string),
  (launch_err (config id) = None ->
     shouldHook config id =
       match recognized (output (config id)) with
       | [] => (false, option_map ErrIO (read_err (config id)))
       | _ :: _ => (true, None)
       end) /\
  (forall e, launch_err (config id) = Some e -> shouldHook config id = (false, Some e)).
Proof. exact shouldHook_spec. Qed.

(** [matchCommandOnce] returns group 1 of the first output line the pattern
    matches ("" when no line matches or the group did not take part), and
    the error its deferred [Cleanup] leaves: when a line matched, reading
    stopped there, so only an abnormal exit status other than SIGKILL is
    reported; when none matched, the read error if any, else that exit
    status.  A failing pipe or start gives "" and that error wrapped with
    the command's arguments. *)
Theorem matchCommandOnce_first_match :
  forall (c : Cmd) (p : string -> submatch) (ps : proc_state),
  (launch_err c = None ->
     matchCommandOnce c p ps =
       match first_match p (output c) with
       | Some (_, m, _) => (MatchText m 1, cleanup_report c None ps)
       | None => (""%string, cleanup_report c (read_err c) ps)
       end) /\
  (forall e, launch_err c = Some e ->
     matchCommandOnce c p ps = (""%string, Some (ErrCommand (Args c) e))).
Proof.
  intros c p ps. split.
  - intros Hl. unfold launch_err in Hl. destruct (pipe_err c) eqn:Hp; [discriminate|].
    unfold matchCommandOnce. rewrite (MatcherScan_fresh c p Hp Hl), MatcherScan_streaming.
    destruct (first_match p (output c)) as [[[l m] rest]|]; cbn [msc mmatch].
    + pose proof (Cleanup_streaming_report c rest l ps) as Hc.
      destruct (Cleanup _ (Some None) ps) as [[c' errp] effs]. simpl in Hc. rewrite Hc. reflexivity.
    + pose proof (Cleanup_drained_report c ps) as Hc.
      destruct (Cleanup _ (Some None) ps) as [[c' errp] effs]. simpl in Hc. rewrite Hc. reflexivity.
  - intros e He. destruct (MatcherScan_launch_failed c p e He) as (c0 & Hm & H1 & H2 & H3).
    unfold matchCommandOnce. rewrite Hm. cbn [msc mmatch].
    pose proof (Cleanup_failed_report c0 e ps H1 H2) as Hc. rewrite H3 in Hc.
    destruct (Cleanup c0 (Some None) ps) as [[c' errp] effs]. simpl in Hc. rewrite Hc.
    reflexivity.
Qed.

(** What the [qm list] loop visits and [cmm.Err()] afterwards. *)
Lemma qmListRows_spec :
  forall c : Cmd,
  (launch_err c = None ->
     qmListRows c = (tl (list_matches (output c)), option_map ErrIO (read_err c))) /\
  (forall e, launch_err c = Some e -> qmListRows c = ([], Some e)).
Proof.
  intros c. split.
  - intros Hl. unfold launch_err in Hl. destruct (pipe_err c) eqn:Hp; [discriminate|].
    unfold qmListRows. rewrite (MatcherScan_fresh c listPat Hp Hl), MatcherScan_streaming.
    rewrite list_matches_all, (all_matches_first listPat (output c)).
    destruct (first_match listPat (output c)) as [[[l m] rest]|] eqn:E; cbn [msc].
    + rewrite matcher_rows_streaming; [|unfold lines_left; simpl; lia].
      cbn [msc]. rewrite Err_drained. destruct (read_err c); reflexivity.
    + cbn [matcher_rows]. rewrite MatcherScan_drained. cbn [msc].
      rewrite Err_drained. destruct (read_err c); reflexivity.
  - intros e He. destruct (MatcherScan_launch_failed c listPat e He) as (c0 & Hm & H1 & _).
    unfold qmListRows. rewrite Hm. cbn [msc matcher_rows].
    rewrite (MatcherScan_failed c0 listPat [] e H1). cbn [msc].
    rewrite (Err_err c0 e H1). reflexivity.
Qed.

(** How [mutuals] and [runInit] read [qm list]: after the [Scan] that skips
    the header, the loop visits the matches of the remaining lines that
    [listPat] matches, in order, i.e. every [listPat] match of the output
    but the first (the skipped one is the first matching line, not
    necessarily the first line), and [cmm.Err()] afterwards is the read
    error as an io error, if any.  When the pipe or the start fails, the
    loop visits nothing and [cmm.Err()] is that error. *)
Theorem qmListRows_rows :
  forall c : Cmd,
  (launch_err c = None ->
     qmListRows c = (tl (list_matches (output c)), option_map ErrIO (read_err c))) /\
  (forall e, launch_err c = Some e -> qmListRows c = ([], Some e)).
Proof. exact qmListRows_spec. Qed.

(* ------------------------------------------------------------------ *)
(** ** The install path: [runInit] and the functions it calls          *)
(* ------------------------------------------------------------------ *)

Import Init.

Lemma copy_elem_plain rooted l out dd :
  Forall (fun a => a <> slash) l -> copy_elem rooted l out dd = out ++ l.
Proof.
  revert out. induction l as [|ch l IH]; intros out Hl; simpl; [rewrite app_nil_r; reflexivity|].
  inversion Hl as [|? ? Hch Hl']; subst.
  destruct (Ascii.eqb_spec ch slash) as [E|_]; [contradiction|].
  rewrite IH by exact Hl'. rewrite <- app_assoc. reflexivity.
Qed.



Lemma clean_loop_elem rooted ch rest out dd :
  clean_inv rooted out dd -> ch <> slash -> ch <> dot -> Forall (fun a => a <> slash) rest ->
  exists o, clean_loop rooted (ch :: rest) out dd = o ++ ch :: rest /\ ends_dir o.
Proof.
  intros Hinv Hs Hd Hr.
  assert (Hfin : forall o, ends_dir o -> copy_elem rooted rest (o ++ [ch]) dd = o ++ ch :: rest).
  { intros o _. rewrite copy_elem_plain by exact Hr. rewrite <- app_assoc. reflexivity. }
  cbn [clean_loop].
  destruct (Ascii.eqb_spec ch slash) as [E|_]; [contradiction|].
  destruct (Ascii.eqb_spec ch dot) as [E|_]; [contradiction|]. cbn [andb].
  set (o := if (rooted && negb (length out =? 1)) || (negb rooted && negb (length out =? 0))
            then out ++ [slash] else out).
  assert (Ho : ends_dir o).
  { unfold o. destruct ((rooted && negb (length out =? 1)) || (negb rooted && negb (length out =? 0))) eqn:C.
    - right. eexists. reflexivity.
    - destruct rooted.
      + destruct (Hinv eq_refl) as [[t ->] _]. simpl in C.
        destruct t; [|discriminate]. right. exists []. reflexivity.
      + simpl in C. destruct out; [left; reflexivity|discriminate]. }
  exists o. split; [|exact Ho].
  destruct rest as [|c2 rest2]; apply Hfin; exact Ho.
Qed.

Lemma bt_w_ge out dd w : dd <= w -> dd <= bt_w out dd w.
Proof.
  induction w as [|w IH]; intros H; simpl; [lia|].
  destruct ((dd <? S w) && negb (Ascii.eqb (nth (S w) out slash) slash)) eqn:C; [|lia].
  apply andb_true_iff in C as [C _]. apply Nat.ltb_lt in C. apply IH. lia.
Qed.

Lemma elem_step_inv rooted out dd c :
  clean_inv rooted out dd ->
  clean_inv rooted ((if (rooted && negb (length out =? 1)) || (negb rooted && negb (length out =? 0))
                     then out ++ [slash] else out) ++ [c]) dd.
Proof.
  intros Hinv Hr. destruct (Hinv Hr) as [[t ->] Hd]. split; [|exact Hd].
  destruct (_ || _); eexists; reflexivity.
Qed.

Lemma clean_loop_real rooted c l out dd :
  c <> slash -> c <> dot -> clean_inv rooted out dd ->
  exists out', clean_inv rooted out' dd /\ clean_loop rooted (c :: l) out dd = copy_elem rooted l out' dd.
Proof.
  intros Hs Hd Hinv. eexists. split; [apply (elem_step_inv _ _ _ c Hinv)|].
  cbn [clean_loop].
  destruct (Ascii.eqb_spec c slash) as [E|_]; [contradiction|].
  destruct (Ascii.eqb_spec c dot) as [E|_]; [contradiction|]. cbn [andb].
  destruct l; reflexivity.
Qed.

Lemma clean_loop_real_dot rooted c2 l out dd :
  c2 <> slash -> clean_inv rooted out dd ->
  (c2 <> dot \/ exists c3 l', l = c3 :: l' /\ c3 <> slash) ->
  exists out', clean_inv rooted out' dd /\
    clean_loop rooted (dot :: c2 :: l) out dd = copy_elem rooted (c2 :: l) out' dd.
Proof.
  intros Hs Hinv Hc. eexists. split; [apply (elem_step_inv _ _ _ dot Hinv)|].
  cbn [clean_loop]. change (Ascii.eqb dot slash) with false. change (Ascii.eqb dot dot) with true.
  cbn [andb].
  destruct (Ascii.eqb_spec c2 slash) as [E|_]; [contradiction|]. cbn [andb].
  destruct Hc as [Hc|(c3 & l' & -> & Hc3)].
  - destruct (Ascii.eqb_spec c2 dot) as [E|_]; [contradiction|]. reflexivity.
  - destruct (Ascii.eqb_spec c3 slash) as [E|_]; [contradiction|].
    destruct (Ascii.eqb c2 dot); reflexivity.
Qed.

Lemma clean_loop_dotdot rooted l out dd :
  clean_inv rooted out dd ->
  exists out' dd', clean_inv rooted out' dd' /\
    clean_loop rooted (dot :: dot :: slash :: l) out dd = clean_loop rooted (slash :: l) out' dd'.
Proof.
  intros Hinv.
  change (clean_loop rooted (dot :: dot :: slash :: l) out dd) with
    (if dd <? length out then
       clean_loop rooted (slash :: l) (firstn (bt_w out dd (length out - 1)) out) dd
     else if negb rooted then
       let out' := (if 0 <? length out then out ++ [slash] else out) ++ [dot; dot] in
       clean_loop rooted (slash :: l) out' (length out')
     else clean_loop rooted (slash :: l) out dd).
  destruct (dd <? length out) eqn:C.
  - do 2 eexists. split; [|reflexivity].
    intros Hr. destruct (Hinv Hr) as [[t Ht] Hd]. split; [|exact Hd].
    apply Nat.ltb_lt in C.
    pose proof (bt_w_ge out dd (length out - 1) ltac:(lia)) as Hk.
    destruct (bt_w out dd (length out - 1)) as [|k]; [lia|].
    rewrite Ht. eexists. reflexivity.
  - destruct rooted; cbn [negb].
    + do 2 eexists. split; [exact Hinv|reflexivity].
    + do 2 eexists. split; [|reflexivity]. discriminate.
Qed.

Section CleanSuffix.
Variables (ch : ascii) (rest : list ascii).
Hypotheses (Hch_slash : ch <> slash) (Hch_dot : ch <> dot) (Hrest : Forall (fun a => a <> slash) rest).

Lemma clean_suffix n :
  forall rooted inp out dd, length inp <= n -> clean_inv rooted out dd ->
  (exists o, clean_loop rooted (inp ++ slash :: ch :: rest) out dd = o ++ ch :: rest /\ ends_dir o) /\
  (exists o, copy_elem rooted (inp ++ slash :: ch :: rest) out dd = o ++ ch :: rest /\ ends_dir o).
Proof.
  induction n as [|n IH]; intros rooted inp out dd Hlen Hinv.
  - destruct inp; [|simpl in Hlen; lia]. simpl.
    split; apply clean_loop_elem; assumption.
  - destruct inp as [|c inp'].
    + simpl. split; apply clean_loop_elem; assumption.
    + simpl in Hlen. cbn [app]. split.
      * destruct (Ascii.eqb_spec c slash) as [->|Hs].
        { change (clean_loop rooted (slash :: (inp' ++ slash :: ch :: rest)) out dd)
            with (clean_loop rooted (inp' ++ slash :: ch :: rest) out dd).
          apply (IH rooted inp' out dd); [lia|exact Hinv]. }
        destruct (Ascii.eqb_spec c dot) as [->|Hd].
        2:{ destruct (clean_loop_real rooted c (inp' ++ slash :: ch :: rest) out dd Hs Hd Hinv)
              as (out' & Hi & ->).
            apply (IH rooted inp' out' dd); [lia|exact Hi]. }
        destruct inp' as [|c2 inp''].
        { cbn [app].
          change (clean_loop rooted (dot :: slash :: ch :: rest) out dd)
            with (clean_loop rooted (slash :: ch :: rest) out dd).
          apply (IH rooted [] out dd); [simpl in *; lia|exact Hinv]. }
        cbn [app].
        destruct (Ascii.eqb_spec c2 slash) as [->|Hs2].
        { change (clean_loop rooted (dot :: slash :: (inp'' ++ slash :: ch :: rest)) out dd)
            with (clean_loop rooted (slash :: (inp'' ++ slash :: ch :: rest)) out dd).
          apply (IH rooted (slash :: inp'') out dd); [simpl in *; lia|exact Hinv]. }
        assert (Hgen : (c2 <> dot \/ exists c3 l', inp'' ++ slash :: ch :: rest = c3 :: l' /\ c3 <> slash) ->
                 exists o, clean_loop rooted (dot :: c2 :: inp'' ++ slash :: ch :: rest) out dd
                           = o ++ ch :: rest /\ ends_dir o).
        { intros Hc.
          destruct (clean_loop_real_dot rooted c2 (inp'' ++ slash :: ch :: rest) out dd Hs2 Hinv Hc)
            as (out' & Hi & ->).
          apply (IH rooted (c2 :: inp'') out' dd); [simpl in *; lia|exact Hi]. }
        destruct (Ascii.eqb_spec c2 dot) as [->|Hd2]; [|apply Hgen; left; exact Hd2].
        destruct inp'' as [|c3 inp3].
        { cbn [app].
          destruct (clean_loop_dotdot rooted (ch :: rest) out dd Hinv) as (out' & dd' & Hi & ->).
          apply (IH rooted [] out' dd'); [simpl in *; lia|exact Hi]. }
        cbn [app].
        destruct (Ascii.eqb_spec c3 slash) as [->|Hs3].
        { destruct (clean_loop_dotdot rooted (inp3 ++ slash :: ch :: rest) out dd Hinv)
            as (out' & dd' & Hi & ->).
          apply (IH rooted (slash :: inp3) out' dd'); [simpl in *; lia|exact Hi]. }
        apply Hgen. right. exists c3, (inp3 ++ slash :: ch :: rest). split; [reflexivity|exact Hs3].
      * cbn [copy_elem].
        destruct (Ascii.eqb_spec c slash) as [->|Hs].
        { apply (IH rooted inp' out dd); [lia|exact Hinv]. }
        apply (IH rooted inp' (out ++ [c]) dd); [lia|].
        intros Hr. destruct (Hinv Hr) as [[t ->] Hd]. split; [eexists; reflexivity|exact Hd].
Qed.

End CleanSuffix.

Lemma list_ascii_app (s1 s2 : string) :
  list_ascii_of_string (s1 ++ s2) = list_ascii_of_string s1 ++ list_ascii_of_string s2.
Proof. induction s1 as [|a s1 IH]; simpl; [reflexivity|]. rewrite IH. reflexivity. Qed.

Lemma Clean_suffix p pre ch rest :
  ch <> slash -> ch <> dot -> Forall (fun a => a <> slash) rest -> pre <> [] ->
  list_ascii_of_string p = pre ++ slash :: ch :: rest ->
  exists o, ends_dir o /\ Clean p = string_of_list_ascii (o ++ ch :: rest).
Proof.
  intros Hs Hd Hr Hpre Hp. unfold Clean. rewrite Hp.
  destruct pre as [|c0 pre']; [contradiction|]. cbn [app].
  assert (Hres : exists o, ends_dir o /\
            (if Ascii.eqb c0 slash then clean_loop true (pre' ++ slash :: ch :: rest) [slash] 1
             else clean_loop false (c0 :: pre' ++ slash :: ch :: rest) [] 0) = o ++ ch :: rest).
  { destruct (Ascii.eqb c0 slash).
    - destruct (proj1 (clean_suffix ch rest Hs Hd Hr (length pre') true pre' [slash] 1 (le_n _)
                  ltac:(intros _; split; [eexists; reflexivity|lia]))) as (o & Ho & He).
      exists o. split; assumption.
    - destruct (proj1 (clean_suffix ch rest Hs Hd Hr (length (c0 :: pre')) false (c0 :: pre') [] 0
                  (le_n _) ltac:(discriminate))) as (o & Ho & He).
      exists o. split; assumption. }
  destruct Hres as (o & Ho & He). exists o. split; [exact Ho|].
  cbv zeta. rewrite He. destruct o; reflexivity.
Qed.

Lemma upto_slash_app l1 l2 :
  Forall (fun a => a <> slash) l1 -> upto_slash (l1 ++ l2) = l1 ++ upto_slash l2.
Proof.
  induction 1 as [|x l Hx Hl IH]; [reflexivity|]. simpl.
  destruct (Ascii.eqb_spec x slash); [contradiction|]. rewrite IH. reflexivity.
Qed.

Lemma Base_suffix o nm :
  ends_dir o -> nm <> [] -> Forall (fun a => a <> slash) nm ->
  Base (string_of_list_ascii (o ++ nm)) = string_of_list_ascii nm.
Proof.
  intros Ho Hnm Hf. unfold Base.
  destruct nm as [|x nm']; [contradiction|].
  replace (String.eqb (string_of_list_ascii (o ++ x :: nm')) EmptyString) with false
    by (destruct o; reflexivity).
  rewrite list_ascii_of_string_of_list_ascii.
  set (nm := x :: nm') in *.
  assert (Hrf : Forall (fun a => a <> slash) (rev nm)).
  { apply List.Forall_rev. exact Hf. }
  rewrite rev_app_distr.
  destruct (rev nm) as [|y r] eqn:Er.
  { apply (f_equal (@rev ascii)) in Er. rewrite rev_involutive in Er. discriminate. }
  inversion Hrf as [|? ? Hy _]; subst. cbn [app drop_slashes].
  destruct (Ascii.eqb_spec y slash); [contradiction|].
  cbv zeta. change (y :: r ++ rev o) with ((y :: r) ++ rev o). rewrite <- Er, rev_involutive.
  rewrite <- Er in Hrf. rewrite (upto_slash_app _ _ Hrf).
  replace (upto_slash (rev o)) with (@nil ascii).
  2:{ destruct Ho as [->|[o' ->]]; [reflexivity|]. rewrite rev_app_distr. reflexivity. }
  rewrite app_nil_r, rev_involutive. reflexivity.
Qed.

(** [runInit] installs the program as [path.Join(dir, snippets, hookCmdName)]
    under the storage directory [dir].  For every [dir], [path.Base] of that
    path is [hookCmdName], so the installed copy, started under that path
    with no [-ssh] and no [-cmd] flag, dispatches to [runHook]. *)
Theorem hookDest_runs_hook dir args :
  Base (hookDest dir) = hookCmdName /\ run (hookDest dir) "" "" args = RunHook hookCmdName args.
Proof.
  assert (HB : Base (hookDest dir) = hookCmdName).
  { unfold hookDest, Join.
    destruct dir as [|c d]; [vm_compute; reflexivity|].
    match goal with
    | |- context [Nat.eqb ?n 0] => replace (Nat.eqb n 0) with false by reflexivity
    end.
    match goal with
    | |- context [fold_left ?f ?l ?i] =>
        replace (fold_left f l i)
          with ((((String c d ++ "/") ++ "snippets") ++ "/") ++ hookCmdName)%string by reflexivity
    end.
    destruct (Clean_suffix ((((String c d ++ "/") ++ "snippets") ++ "/") ++ hookCmdName)
                (list_ascii_of_string (String c d ++ "/snippets")) "q"%char
                (list_ascii_of_string "mexmut.hook")) as (o & Ho & ->).
    - discriminate.
    - discriminate.
    - repeat constructor; discriminate.
    - discriminate.
    - rewrite !list_ascii_app. simpl. rewrite <- !app_assoc. reflexivity.
    - change ("q"%char :: list_ascii_of_string "mexmut.hook") with (list_ascii_of_string hookCmdName).
      rewrite (Base_suffix o (list_ascii_of_string hookCmdName) Ho ltac:(discriminate));
        [apply string_of_list_ascii_of_string|].
      repeat constructor; discriminate. }
  split; [exact HB|]. unfold run. rewrite HB. reflexivity.
Qed.


Lemma str_app_assoc (a b c : string) : ((a ++ b) ++ c)%string = (a ++ (b ++ c))%string.
Proof. induction a as [|x a IH]; [reflexivity|]. exact (f_equal (String x) IH). Qed.

Lemma str_app_nil_r (a : string) : (a ++ "")%string = a.
Proof. induction a as [|x a IH]; [reflexivity|]. exact (f_equal (String x) IH). Qed.

Lemma string_concat_cons sep x l :
  l <> [] -> String.concat sep (x :: l) = (x ++ sep ++ String.concat sep l)%string.
Proof. destruct l; [contradiction|reflexivity]. Qed.

Lemma split_acc_spec s : forall cur,
  ~ In ","%char (list_ascii_of_string cur) ->
  String.concat "," (split_acc s cur) = (cur ++ s)%string /\
  Forall (fun f => ~ In ","%char (list_ascii_of_string f)) (split_acc s cur) /\
  split_acc s cur <> [].
Proof.
  induction s as [|ch s IH]; intros cur Hcur; simpl.
  - rewrite str_app_nil_r. split; [reflexivity|]. split; [constructor; [exact Hcur|constructor]|discriminate].
  - destruct (Ascii.eqb_spec ch ","%char) as [->|Hch].
    + destruct (IH "" ltac:(simpl; tauto)) as (Hc & Hf & Hn).
      split; [|split; [constructor; assumption|discriminate]].
      rewrite string_concat_cons by exact Hn. rewrite Hc. reflexivity.
    + assert (Hcur' : ~ In ","%char (list_ascii_of_string (cur ++ String ch ""))).
      { rewrite list_ascii_app. simpl. rewrite in_app_iff. simpl. intuition. }
      destruct (IH _ Hcur') as (Hc & Hf & Hn). split; [|split; assumption].
      rewrite Hc, str_app_assoc. reflexivity.
Qed.

(** [strings.Split(s, ",")] cuts at every comma and only there: its
    fields joined with commas give back [s], and no field contains a
    comma. *)
Theorem Split_fields (s : string) :
  String.concat "," (Split s) = s /\
  Forall (fun f => ~ In ","%char (list_ascii_of_string f)) (Split s).
Proof.
  destruct (split_acc_spec s "" ltac:(simpl; tauto)) as (Hc & Hf & _).
  split; [exact Hc|exact Hf].
Qed.

Lemma hasString_In w ss : hasString w ss = true <-> In w ss.
Proof.
  induction ss as [|s ss IH]; simpl; [split; [discriminate|tauto]|].
  destruct (String.eqb_spec s w) as [->|Hne]; [tauto|]. rewrite IH. intuition congruence.
Qed.

Lemma findSnippets_loop_skip pre l :
  Forall (fun st => st_Path st = ""%string \/ ~ In "snippets"%string (Split (st_Content st))) pre ->
  findSnippets_loop (pre ++ l) = findSnippets_loop l.
Proof.
  induction 1 as [|st pre Hst _ IH]; [reflexivity|]. simpl.
  destruct (String.eqb_spec (st_Path st) "") as [_|Hp]; [exact IH|].
  destruct Hst as [Hst|Hst]; [contradiction|].
  destruct (hasString "snippets" (Split (st_Content st))) eqn:Hh.
  - apply hasString_In in Hh. contradiction.
  - exact IH.
Qed.

(** When [decodeJSONCommand] succeeds, [findSnippets] returns the name and
    path of the first storage with a non-empty path whose content, split at
    commas, has a field equal to snippets.  When there is no such storage
    it returns two empty strings and no error. *)
Theorem findSnippets_first_storage (pv : JSONCmd) :
  decodeJSONCommand pv = None ->
  (forall pre st post, j_value pv = pre ++ st :: post ->
     st_Path st <> ""%string -> In "snippets"%string (Split (st_Content st)) ->
     Forall (fun st' => st_Path st' = ""%string \/ ~ In "snippets"%string (Split (st_Content st'))) pre ->
     findSnippets pv = (st_Name st, st_Path st, None)) /\
  (Forall (fun st => st_Path st = ""%string \/ ~ In "snippets"%string (Split (st_Content st))) (j_value pv) ->
     findSnippets pv = (""%string, ""%string, None)).
Proof.
  intros Hd. unfold findSnippets. rewrite Hd. split.
  - intros pre st post Hv Hp Hs Hpre. rewrite Hv, findSnippets_loop_skip by exact Hpre. simpl.
    destruct (String.eqb_spec (st_Path st) "") as [E|_]; [contradiction|].
    apply hasString_In in Hs. rewrite Hs. reflexivity.
  - intros Hall. rewrite <- (app_nil_r (j_value pv)), findSnippets_loop_skip by exact Hall.
    reflexivity.
Qed.



Lemma runs_concat (L : list (list Hook.event)) : Hook.runs (concat L) = concat (map Hook.runs L).
Proof. induction L as [|t L IH]; [reflexivity|]. simpl. rewrite runs_app, IH. reflexivity. Qed.

Lemma perm_concat_map {A B} (f : A -> list B) (l1 l2 : list A) :
  Permutation l1 l2 -> Permutation (concat (map f l1)) (concat (map f l2)).
Proof.
  induction 1 as [|x l1 l2 _ IH|x y l|l1 l2 l3 _ IH1 _ IH2]; simpl.
  - constructor.
  - apply Permutation_app_head. exact IH.
  - rewrite !app_assoc. apply Permutation_app_tail, Permutation_app_comm.
  - etrans; eassumption.
Qed.

Lemma first_error_None (l : list (option error)) :
  Hook.first_error l = None <-> List.Forall (fun x => x = None) l.
Proof.
  induction l as [|[e|] l IH]; simpl.
  - split; constructor.
  - split; [discriminate|]. intros H. inversion H. discriminate.
  - rewrite IH. split; [constructor; auto|]. intros H. inversion H. assumption.
Qed.

Lemma Forall_perm {A} (P : A -> Prop) (l1 l2 : list A) :
  Permutation l1 l2 -> List.Forall P l1 <-> List.Forall P l2.
Proof.
  intros Hp. rewrite !List.Forall_forall. split; intros H x Hx; apply H.
  - apply Permutation_in with l2; [symmetry|]; assumption.
  - apply Permutation_in with l1; assumption.
Qed.

(** [runInit] once the snippets storage was found and the [qm] commands
    start.  Either the copy failed (only outside a dry run) and there are no
    events, or the first event logs the install path and the [Run] commands
    of the tasks are, in some order, one [qm set <id> --hookscript
    <store>:snippets/qmexmut.hook] per listed guest (every [listPat] match
    of [qm list] but the first) whose [qm config] output has a recognized
    label, and none in a dry run.  The error is nil exactly when [qm list]
    reads without error, every unlabelled guest's config reads without
    error, and, outside a dry run, every [qm set] succeeds. *)
Theorem runInit_hookscripts (w : InitWorld) (dryRun : bool)
    (exec_result : list string -> option error) (store dir : string)
    (evs : list init_event) (err : option ierror) :
  findSnippets (pvesh w) = (store, dir, None) ->
  launch_err (qm_list_cmd w) = None ->
  (forall id, launch_err (qm_config_cmd w id) = None) ->
  runInit w dryRun exec_result evs err ->
  let ids := map (fun m => MatchText m 1) (tl (Hook.list_matches (output (qm_list_cmd w)))) in
  let hooked id := negb (bool_decide (Hook.recognized (output (qm_config_cmd w id)) = [])) in
  (dryRun = false /\ evs = [] /\ err = copySelfTo (install w) (hookDest dir) /\ err <> None) \/
  ((dryRun = false -> copySelfTo (install w) (hookDest dir) = None) /\
   exists tr,
     evs = (if dryRun then LogWouldCopy (hookDest dir) else LogCopied (hookDest dir)) :: map Task tr /\
     Permutation (Hook.runs tr)
       (if dryRun then [] else map (fun id => set_hook_args id (hookScript store)) (List.filter hooked ids)) /\
     (err = None <->
        read_err (qm_list_cmd w) = None /\
        List.Forall (fun id => if hooked id
                               then dryRun = true \/ exec_result (set_hook_args id (hookScript store)) = None
                               else read_err (qm_config_cmd w id) = None) ids)).
Proof.
  intros Hf Hl Hc Hrun. cbv beta zeta.
  inversion Hrun as [s0 d0 e0 Hf0|s0 d0 e0 Hf0 Hdry Hcp|s0 d0 tr e0 Hf0 Hcp Hg]; subst;
    rewrite Hf in Hf0; injection Hf0 as <- <-; try discriminate.
  - left. split; [reflexivity|]. split; [reflexivity|]. rewrite Hcp. split; [reflexivity|discriminate].
  - right. split; [intros ->; exact Hcp|].
    exists tr. split; [reflexivity|].
    inversion Hg as [order Hperm]; subst.
    unfold init_tasks in Hperm. rewrite (proj1 (qmListRows_spec (qm_list_cmd w)) Hl) in Hperm.
    rewrite <- (map_map (fun m => MatchText m 1) (hookTask dryRun exec_result (qm_config_cmd w) (hookScript store))) in Hperm.
    set (ids := map (fun m => MatchText m 1) (tl (Hook.list_matches (output (qm_list_cmd w))))).
    assert (Htask : forall id, hookTask dryRun exec_result (qm_config_cmd w) (hookScript store) id =
              match Hook.recognized (output (qm_config_cmd w id)) with
              | [] => ([], option_map ErrIO (read_err (qm_config_cmd w id)))
              | _ :: _ => Hook.maybeRun dryRun exec_result (set_hook_args id (hookScript store))
              end).
    { intros id. unfold hookTask. rewrite (proj1 (shouldHook_spec (qm_config_cmd w) id) (Hc id)).
      destruct (Hook.recognized _); [|reflexivity]. destruct (read_err (qm_config_cmd w id)); reflexivity. }
    fold ids in Hperm. split.
    + rewrite runs_concat, map_map.
      rewrite (perm_concat_map (fun x => Hook.runs (fst x)) _ _ Hperm). cbn [map concat app].
      clear Hperm. induction ids as [|id ids IH]; [destruct dryRun; reflexivity|].
      cbn [map concat List.filter]. rewrite Htask.
      destruct (Hook.recognized (output (qm_config_cmd w id))) as [|l ls] eqn:Er.
      * rewrite bool_decide_true by reflexivity. exact IH.
      * rewrite bool_decide_false by discriminate. cbn [negb].
        destruct dryRun; simpl; [exact IH|]. apply perm_skip. exact IH.
    +
      transitivity (Hook.first_error (map snd order) = None).
      { destruct (Hook.first_error _); simpl; split; congruence. }
      rewrite first_error_None, List.Forall_map.
      rewrite (Forall_perm (fun x => snd x = None) _ _ Hperm).
      rewrite List.Forall_cons_iff, List.Forall_map.

      split.
      * intros [H1 H2]. split; [destruct (read_err (qm_list_cmd w)); [discriminate|reflexivity]|].
        eapply List.Forall_impl; [|exact H2]. intros id. cbv beta. rewrite Htask. simpl.
        destruct (Hook.recognized _); simpl.
        -- intros H. destruct (read_err (qm_config_cmd w id)); [discriminate|reflexivity].
        -- destruct dryRun; simpl; auto.
      * intros [H1 H2]. split; [rewrite H1; reflexivity|].
        eapply List.Forall_impl; [|exact H2]. intros id. cbv beta. rewrite Htask. simpl.
        destruct (Hook.recognized _); simpl.
        -- intros ->. reflexivity.
        -- destruct dryRun; simpl; [reflexivity|]. intros [H|H]; [discriminate|exact H].
Qed.

(* ------------------------------------------------------------------ *)
(** ** Witnesses on the sample commands                                 *)
(* ------------------------------------------------------------------ *)

Lemma hostResources_reads_labels_witness :
  launch_err (sample_config_cmd "101") = None /\
  Cmds.hostResources sample_config_cmd "101" Running =
    (list_to_set (Hook.recognized (output (sample_config_cmd "101"))),
     cleanup_report (sample_config_cmd "101") (read_err (sample_config_cmd "101")) Running) /\
  launch_err sample_failed_cmd = Some sample_start_err /\
  Cmds.hostResources (fun _ => sample_failed_cmd) "101" Running =
    (∅, Some (ErrCommand (Args sample_failed_cmd) sample_start_err)).
Proof.
  split; [reflexivity|]. split.
  - apply (proj1 (hostResources_reads_labels sample_config_cmd "101" Running)). reflexivity.
  - split; [reflexivity|].
    apply (proj2 (hostResources_reads_labels (fun _ => sample_failed_cmd) "101" Running)).
    reflexivity.
Defined.

Lemma sharesHostResources_reads_labels_witness :
  launch_err (sample_config_cmd "101") = None /\
  fst (Cmds.sharesHostResources sample_config_cmd "101" {["hostpci:0000:01:00.0"]} Running) =
    existsb (fun l => bool_decide (l ∈ ({["hostpci:0000:01:00.0"]} : gset string)))
      (Hook.recognized (output (sample_config_cmd "101"))) /\
  launch_err sample_failed_cmd = Some sample_start_err /\
  Cmds.sharesHostResources (fun _ => sample_failed_cmd) "101" ∅ Running =
    (false, Some (ErrCommand (Args sample_failed_cmd) sample_start_err)).
Proof.
  split; [reflexivity|]. split.
  - exact (proj1 (proj1 (sharesHostResources_reads_labels sample_config_cmd "101"
                           {["hostpci:0000:01:00.0"]} Running) eq_refl)).
  - split; [reflexivity|].
    apply (proj2 (sharesHostResources_reads_labels (fun _ => sample_failed_cmd) "101" ∅ Running)).
    reflexivity.
Defined.

Lemma shouldHook_first_label_witness :
  launch_err (sample_config_cmd "103") = None /\
  Cmds.shouldHook sample_config_cmd "103" =
    match Hook.recognized (output (sample_config_cmd "103")) with
    | [] => (false, option_map ErrIO (read_err (sample_config_cmd "103")))
    | _ :: _ => (true, None)
    end /\
  launch_err sample_failed_cmd = Some sample_start_err /\
  Cmds.shouldHook (fun _ => sample_failed_cmd) "103" = (false, Some sample_start_err).
Proof.
  split; [reflexivity|]. split.
  - apply (proj1 (shouldHook_first_label sample_config_cmd "103")). reflexivity.
  - split; [reflexivity|].
    apply (proj2 (shouldHook_first_label (fun _ => sample_failed_cmd) "103")). reflexivity.
Defined.

Lemma matchCommandOnce_first_match_witness :
  launch_err sample_qm_list_cmd = None /\
  matchCommandOnce sample_qm_list_cmd listPat Running =
    match first_match listPat (output sample_qm_list_cmd) with
    | Some (_, m, _) => (MatchText m 1, cleanup_report sample_qm_list_cmd None Running)
    | None => (""%string, cleanup_report sample_qm_list_cmd (read_err sample_qm_list_cmd) Running)
    end /\
  launch_err sample_failed_cmd = Some sample_start_err /\
  matchCommandOnce sample_failed_cmd listPat Running =
    (""%string, Some (ErrCommand (Args sample_failed_cmd) sample_start_err)).
Proof.
  split; [reflexivity|]. split.
  - apply (proj1 (matchCommandOnce_first_match sample_qm_list_cmd listPat Running)). reflexivity.
  - split; [reflexivity|].
    apply (proj2 (matchCommandOnce_first_match sample_failed_cmd listPat Running)). reflexivity.
Defined.

Lemma qmListRows_rows_witness :
  launch_err sample_qm_list_cmd = None /\
  qmListRows sample_qm_list_cmd =
    (tl (Hook.list_matches (output sample_qm_list_cmd)), option_map ErrIO (read_err sample_qm_list_cmd)) /\
  launch_err sample_failed_cmd = Some sample_start_err /\
  qmListRows sample_failed_cmd = ([], Some sample_start_err).
Proof.
  split; [reflexivity|]. split.
  - apply (proj1 (qmListRows_rows sample_qm_list_cmd)). reflexivity.
  - split; [reflexivity|]. apply (proj2 (qmListRows_rows sample_failed_cmd)). reflexivity.
Defined.

Lemma findSnippets_first_storage_witness :
  decodeJSONCommand (sample_pvesh [sample_local; sample_snip] None None) = None /\
  findSnippets (sample_pvesh [sample_local; sample_snip] None None) = ("snip", "/mnt/pve/snip", None) /\
  findSnippets (sample_pvesh [sample_local] None None) = ("", "", None).
Proof.
  split; [reflexivity|]. split.
  - apply (proj1 (findSnippets_first_storage (sample_pvesh [sample_local; sample_snip] None None) eq_refl)
             [sample_local] sample_snip []).
    + reflexivity.
    + discriminate.
    + cbv. right. left. reflexivity.
    + constructor; [|constructor]. right. cbv. intros [H|[H|[H|[]]]]; discriminate.
  - apply (proj2 (findSnippets_first_storage (sample_pvesh [sample_local] None None) eq_refl)).
    constructor; [|constructor]. right. cbv. intros [H|[H|[H|[]]]]; discriminate.
Defined.


Lemma runInit_hookscripts_witness :
  let w := sample_init_world in
  let tasks := init_tasks w false (fun _ => None) (hookScript "snip") in
  let evs := LogCopied (hookDest "/mnt/pve/snip") :: map Task (concat (map fst tasks)) in
  let err := option_map IErr (Hook.first_error (map snd tasks)) in
  runInit w false (fun _ => None) evs err /\
  (exists tr, evs = LogCopied (hookDest "/mnt/pve/snip") :: map Task tr /\
     Permutation (Hook.runs tr)
       [set_hook_args "101" (hookScript "snip"); set_hook_args "102" (hookScript "snip")]) /\
  err = None.
Proof.
  intros w tasks evs err.
  assert (Hrun : runInit w false (fun _ => None) evs err).
  { apply (init_group w false (fun _ => None) "snip" "/mnt/pve/snip").
    - vm_compute. reflexivity.
    - vm_compute. reflexivity.
    - constructor. reflexivity. }
  pose proof (runInit_hookscripts w false (fun _ => None) "snip" "/mnt/pve/snip" evs err
                ltac:(vm_compute; reflexivity) eq_refl (fun _ => eq_refl) Hrun) as H.
  cbv zeta in H.
  destruct H as [(_ & Hnil & _)|(_ & tr & Hevs & Hperm & Herr)]; [discriminate|].
  split; [exact Hrun|]. split.
  - exists tr. split; [exact Hevs|].
    eapply Permutation_trans; [exact Hperm|]. vm_compute. apply Permutation_refl.
  - apply Herr. split; [reflexivity|].
    vm_compute. repeat constructor; right; reflexivity.
Defined.
